(** * TeeworldsEcon: the external-console client of src/service/econ.ts

    A shallow embedding of the class [TeeworldsEcon] together with the part
    of the Node runtime it talks to (sockets, one-shot timers, promises), and
    the properties of its connection life cycle.

    Conventions of the model:
    - a JavaScript string is the list of its UTF-16 code units;
    - a received chunk is represented by the text that
      [data.toString('utf-8')] yields for it;
    - the instance is made with a port in 0..65535, the ports
      [net.connect] accepts: then [net.connect] hands back a new socket
      object, as [net_connect] does, and [connect] below is the method;
      [connect_checked] is the method for any port, with the [RangeError]
      of [net.connect] for a port outside that range;
    - sockets, timers and promises are objects of the runtime: each lives in
      a store and is named by its index there;
    - a listener of the caller is an opaque function: a call of it is
      recorded with its argument, and it does not call back into the
      instance;
    - the runtime may deliver any event at any time: the properties hold for
      every order of events. *)

From Stdlib Require Import ZArith NArith Lia.
From stdpp Require Import base option list strings.

(** ** JavaScript strings *)

Abbreviation jsstring := (list N).

(** A string literal, as code units. *)
Definition str (s : string) : jsstring :=
  Ascii.N_of_ascii <$> String.list_ascii_of_string s.

(** [s.startsWith(prefix)] *)
Fixpoint startsWith (s prefix : jsstring) : bool :=
  match prefix, s with
  | [], _ => true
  | p :: prefix', c :: s' => (c =? p)%N && startsWith s' prefix'
  | _ :: _, [] => false
  end.

(** White space and line terminators of ECMAScript, the code units that
    [trimEnd] strips. *)
Definition isWhiteSpace (c : N) : bool :=
  ((c =? 0x9) || (c =? 0xA) || (c =? 0xB) || (c =? 0xC) || (c =? 0xD)
   || (c =? 0x20) || (c =? 0xA0) || (c =? 0x1680)
   || ((0x2000 <=? c) && (c <=? 0x200A))
   || (c =? 0x2028) || (c =? 0x2029) || (c =? 0x202F) || (c =? 0x205F)
   || (c =? 0x3000) || (c =? 0xFEFF))%N.

Definition isEmpty (s : jsstring) : bool :=
  match s with [] => true | _ => false end.

(** [s.trimEnd()] *)
Fixpoint trimEnd (s : jsstring) : jsstring :=
  match s with
  | [] => []
  | c :: rest =>
      let rest' := trimEnd rest in
      if isWhiteSpace c && isEmpty rest' then [] else c :: rest'
  end.

(** [l.join(sep)] on an array of strings. *)
Fixpoint join (sep : jsstring) (l : list jsstring) : jsstring :=
  match l with
  | [] => []
  | x :: rest =>
      match rest with
      | [] => x
      | _ :: _ => x ++ sep ++ join sep rest
      end
  end.

(** The line terminator, "\n". *)
Definition LF : jsstring := [0xA%N].

(** ** Data model *)

Module Options.

(** [interface EconOptions]; an absent optional field is [None]. *)
Record t := mk {
  host : option jsstring;
  port : Z;
  password : jsstring;
  timeout : option Z }.

End Options.

Inductive ConnState := connecting | connected | disconnected.

Global Instance ConnState_eq_dec : EqDecision ConnState.
Proof. solve_decision. Defined.

(** Thrown values: [new Error(msg)], the [TypeError] the runtime raises
    for a member access on [null] or [undefined], and the [RangeError] of
    [net.connect] for a port it does not accept. *)
Inductive JsError :=
| Error (msg : jsstring)
| TypeError
| RangeError.

Inductive Promise :=
| Pending
| Fulfilled
| Rejected (e : JsError).

(** A listener is a function value.  [Callback n] is a function of the
    caller; [PushResponses] is the closure [msg => responses.push(msg)] that
    [quickfire] registers. *)
Inductive Listener :=
| Callback (n : nat)
| PushResponses.

(** [string | string[]] *)
Inductive Command :=
| Single (c : jsstring)
| Many (cs : list jsstring).

(** The fields of a [TeeworldsEcon] instance.  [conn] and [timeout] hold the
    index of a socket, respectively a timer, or are [None] for
    [null]/[undefined]. *)
Record TeeworldsEcon := mkEcon {
  options : Options.t;
  conn : option nat;
  state : ConnState;
  error : option jsstring;
  timeout : option nat;
  messageHooks : option Listener;
  closeHook : option Listener;
  errorHook : option Listener }.

(** A [net.Socket]: where it connects to, the promise whose [resolve] and
    [reject] its ['data'] listener closes over (once registered), the
    strings passed to [write] so far, whether [end] was called, and the
    promises waiting on a [once('drain')] listener. *)
Record Socket := mkSocket {
  sock_host : option jsstring;
  sock_port : Z;
  sock_data : option nat;
  sock_written : list jsstring;
  sock_ended : bool;
  sock_drain : list nat }.

(** A timer made by [setTimeout] in [connect]: the promise its callback
    closes over, its delay, and whether it is still scheduled. *)
Record Timer := mkTimer {
  timer_owner : nat;
  timer_delay : Z;
  timer_armed : bool }.

(** What the subscribers have been called with, in order. *)
Inductive HookCall :=
| MessageCall (l : Listener) (msg : jsstring)
| CloseCall (l : Listener) (hadError : bool)
| ErrorCall (l : Listener) (err : jsstring).

Record World := mkWorld {
  self : TeeworldsEcon;
  sockets : list Socket;
  timers : list Timer;
  promises : list Promise;
  calls : list HookCall }.

(** [new TeeworldsEcon(options)] in a runtime with no objects yet. *)
Definition new_econ (o : Options.t) : TeeworldsEcon :=
  {| options := o; conn := None; state := disconnected; error := None;
     timeout := None; messageHooks := None; closeHook := None;
     errorHook := None |}.

Definition new_world (o : Options.t) : World :=
  {| self := new_econ o; sockets := []; timers := []; promises := [];
     calls := [] |}.

(** Field updates. *)
Definition set_options (o : Options.t) (e : TeeworldsEcon) :=
  let 'mkEcon _ c s er t mh ch eh := e in mkEcon o c s er t mh ch eh.
Definition set_conn (c : option nat) (e : TeeworldsEcon) :=
  let 'mkEcon o _ s er t mh ch eh := e in mkEcon o c s er t mh ch eh.
Definition set_state (s : ConnState) (e : TeeworldsEcon) :=
  let 'mkEcon o c _ er t mh ch eh := e in mkEcon o c s er t mh ch eh.
Definition set_timeout (t : option nat) (e : TeeworldsEcon) :=
  let 'mkEcon o c s er _ mh ch eh := e in mkEcon o c s er t mh ch eh.
Definition set_messageHooks (mh : option Listener) (e : TeeworldsEcon) :=
  let 'mkEcon o c s er t _ ch eh := e in mkEcon o c s er t mh ch eh.
Definition set_closeHook (ch : option Listener) (e : TeeworldsEcon) :=
  let 'mkEcon o c s er t mh _ eh := e in mkEcon o c s er t mh ch eh.
Definition set_errorHook (eh : option Listener) (e : TeeworldsEcon) :=
  let 'mkEcon o c s er t mh ch _ := e in mkEcon o c s er t mh ch eh.

Definition with_self (f : TeeworldsEcon -> TeeworldsEcon) (w : World) :=
  let 'mkWorld e ss ts ps cs := w in mkWorld (f e) ss ts ps cs.
Definition with_sockets (f : list Socket -> list Socket) (w : World) :=
  let 'mkWorld e ss ts ps cs := w in mkWorld e (f ss) ts ps cs.
Definition with_timers (f : list Timer -> list Timer) (w : World) :=
  let 'mkWorld e ss ts ps cs := w in mkWorld e ss (f ts) ps cs.
Definition with_promises (f : list Promise -> list Promise) (w : World) :=
  let 'mkWorld e ss ts ps cs := w in mkWorld e ss ts (f ps) cs.
Definition with_calls (f : list HookCall -> list HookCall) (w : World) :=
  let 'mkWorld e ss ts ps cs := w in mkWorld e ss ts ps (f cs).

(** ** Computations: a state monad over the world, with exceptions

    A thrown exception keeps the mutations made before it. *)

Inductive Completion (A : Type) :=
| Normal (a : A)
| Throw (e : JsError).
Arguments Normal {A} a.
Arguments Throw {A} e.

Definition M (A : Type) : Type := World -> Completion A * World.

Global Instance M_ret : MRet M := fun A a w => (Normal a, w).
Global Instance M_bind : MBind M := fun A B f m w =>
  match m w with
  | (Normal a, w') => f a w'
  | (Throw e, w') => (Throw e, w')
  end.

Definition throw {A} (e : JsError) : M A := fun w => (Throw e, w).
Definition get : M World := fun w => (Normal w, w).
Definition modify (f : World -> World) : M unit := fun w => (Normal tt, f w).
Definition this : M TeeworldsEcon := fun w => (Normal (self w), w).

(** The world after a computation, whatever it completed with. *)
Definition exec {A} (m : M A) (w : World) : World := snd (m w).
Definition result {A} (m : M A) (w : World) : Completion A := fst (m w).

(** ** The runtime objects the class uses *)

(** A promise settles once: [resolve] and [reject] of a settled promise do
    nothing. *)
Definition settle (v : Promise) (old : Promise) : Promise :=
  match old with
  | Pending => v
  | _ => old
  end.

Definition resolve (p : nat) : M unit :=
  modify (with_promises (alter (settle Fulfilled) p)).

Definition reject (p : nat) (e : JsError) : M unit :=
  modify (with_promises (alter (settle (Rejected e)) p)).

(** The body of an [async] method, or the executor of the promise a method
    returns, run on a new promise [q].  The body answers [true] when the
    call has returned, [false] when it left [q] to be settled later; an
    exception rejects [q]. *)
Definition async (body : nat -> M bool) : M nat := fun w =>
  let q := length (promises w) in
  match body q (with_promises (fun ps => ps ++ [Pending]) w) with
  | (Normal true, w') => (Normal q, exec (resolve q) w')
  | (Normal false, w') => (Normal q, w')
  | (Throw e, w') => (Normal q, exec (reject q e) w')
  end.

(** [net.connect({ host, port })] for a port that [net.connect] accepts:
    it hands back a new socket. *)
Definition net_connect (h : option jsstring) (p : Z) : M nat := fun w =>
  (Normal (length (sockets w)),
   with_sockets (fun ss => ss ++ [mkSocket h p None [] false []]) w).

(** The ports [net.connect] accepts: the integers from 0 to 65535. *)
Definition legal_port (p : Z) : bool := (0 <=? p)%Z && (p <=? 65535)%Z.

(** [net.connect({ host, port })] for any port: before it makes the socket
    it checks the port, and throws a [RangeError] for one it does not
    accept. *)
Definition net_connect_checked (h : option jsstring) (p : Z) : M nat :=
  if legal_port p then net_connect h p else throw RangeError.

(** [setTimeout(callback, delay)], the callback closing over promise
    [owner]. *)
Definition setTimeout (owner : nat) (delay : Z) : M nat := fun w =>
  (Normal (length (timers w)),
   with_timers (fun ts => ts ++ [mkTimer owner delay true]) w).

Definition disarm (tm : Timer) : Timer :=
  let 'mkTimer owner delay _ := tm in mkTimer owner delay false.

Definition clearTimeout (t : nat) : M unit :=
  modify (with_timers (alter disarm t)).

Definition sock_write (data : jsstring) (s : Socket) : Socket :=
  let 'mkSocket h p d written ended drain := s in
  mkSocket h p d (written ++ [data]) ended drain.
Definition sock_end (s : Socket) : Socket :=
  let 'mkSocket h p d written _ drain := s in
  mkSocket h p d written true drain.
Definition sock_on_data (p : nat) (s : Socket) : Socket :=
  let 'mkSocket h pt _ written ended drain := s in
  mkSocket h pt (Some p) written ended drain.
Definition sock_once_drain (q : nat) (s : Socket) : Socket :=
  let 'mkSocket h p d written ended drain := s in
  mkSocket h p d written ended (drain ++ [q]).
Definition sock_drained (s : Socket) : Socket :=
  let 'mkSocket h p d written ended _ := s in
  mkSocket h p d written ended [].

(** A method call [this.conn.m(...)]: a [TypeError] when [this.conn] is
    [null] or [undefined]. *)
Definition on_conn (f : Socket -> Socket) : M unit :=
  e ← this;
  match conn e with
  | Some c => modify (with_sockets (alter f c))
  | None => throw TypeError
  end.

(** [this.messageHooks?.(line)] and its two siblings. *)
Definition call_messageHooks (line : jsstring) : M unit :=
  e ← this;
  match messageHooks e with
  | Some l => modify (with_calls (fun cs => cs ++ [MessageCall l line]))
  | None => mret tt
  end.
Definition call_closeHook (hadError : bool) : M unit :=
  e ← this;
  match closeHook e with
  | Some l => modify (with_calls (fun cs => cs ++ [CloseCall l hadError]))
  | None => mret tt
  end.
Definition call_errorHook (err : jsstring) : M unit :=
  e ← this;
  match errorHook e with
  | Some l => modify (with_calls (fun cs => cs ++ [ErrorCall l err]))
  | None => mret tt
  end.

(** ** The methods of [TeeworldsEcon] *)

(** [!n] for an optional number and [!s] for an optional string. *)
Definition not_number (n : option Z) : bool :=
  match n with
  | None => true
  | Some z => (z =? 0)%Z
  end.
Definition not_string (s : option jsstring) : bool :=
  match s with
  | None => true
  | Some s => isEmpty s
  end.

Definition default_timeout (o : Options.t) : Options.t :=
  let 'Options.mk h p pw _ := o in Options.mk h p pw (Some 10000%Z).
Definition default_host (o : Options.t) : Options.t :=
  let 'Options.mk _ p pw t := o in Options.mk (Some (str "localhost")) p pw t.

(** The delay handed to [setTimeout]; an absent one counts as 0 there. *)
Definition delay_of (o : Options.t) : Z := default 0%Z (Options.timeout o).

(** [disconnect()] *)
Definition disconnect : M unit :=
  e ← this;
  if negb (bool_decide (state e = disconnected)) || bool_decide (is_Some (conn e))
  then
    modify (with_self (set_state disconnected));;
    on_conn sock_end;;
    modify (with_self (set_conn None))
  else mret tt.

(** The callback of the handshake timer made by the [connect] call whose
    promise is [p]. *)
Definition on_timeout (p : nat) : M unit :=
  e ← this;
  if bool_decide (state e = connecting) then
    disconnect;;
    reject p (Error (str "Connection timeout."))
  else mret tt.

(** The ['data'] listener registered by the [connect] call whose promise is
    [p]. *)
Definition on_data (p : nat) (data : jsstring) : M unit :=
  let line := trimEnd data in
  e ← this;
  if bool_decide (state e = connecting) then
    if startsWith line (str "Enter password:") then
      on_conn (sock_write (Options.password (options e) ++ LF))
    else if startsWith line (str "Authentication successful.") then
      modify (with_self (set_state connected));;
      e' ← this;
      match timeout e' with
      | Some t =>
          clearTimeout t;;
          modify (with_self (set_timeout None))
      | None => mret tt
      end;;
      resolve p
    else if startsWith line (str "Wrong password.") then
      reject p (Error (str "Wrong password."))
    else mret tt
  else call_messageHooks line.

(** [connect()], on an instance whose port [net.connect] accepts.  The
    ['close'] and ['error'] listeners it registers only forward to the
    hooks; they are [call_closeHook] and [call_errorHook], run for the
    events of any socket. *)
Definition connect : M nat :=
  e ← this;
  (if not_number (Options.timeout (options e))
   then modify (with_self (set_options (default_timeout (options e))))
   else mret tt);;
  e ← this;
  (if not_string (Options.host (options e))
   then modify (with_self (set_options (default_host (options e))))
   else mret tt);;
  modify (with_self (set_state connecting));;
  e ← this;
  c ← net_connect (Options.host (options e)) (Options.port (options e));
  modify (with_self (set_conn (Some c)));;
  async (fun p =>
    e ← this;
    t ← setTimeout p (delay_of (options e));
    modify (with_self (set_timeout (Some t)));;
    on_conn (sock_on_data p);;
    mret false).

(** [connect()] for any port.  The method is [async]: all of its body runs
    under the promise it returns, so the [RangeError] of [net.connect]
    rejects that promise, after the state has been set and before
    [this.conn] is assigned or the timer started.  For a port that
    [net.connect] accepts this is [connect]. *)
Definition connect_checked : M nat :=
  async (fun p =>
    e ← this;
    (if not_number (Options.timeout (options e))
     then modify (with_self (set_options (default_timeout (options e))))
     else mret tt);;
    e ← this;
    (if not_string (Options.host (options e))
     then modify (with_self (set_options (default_host (options e))))
     else mret tt);;
    modify (with_self (set_state connecting));;
    e ← this;
    c ← net_connect_checked (Options.host (options e))
                            (Options.port (options e));
    modify (with_self (set_conn (Some c)));;
    e ← this;
    t ← setTimeout p (delay_of (options e));
    modify (with_self (set_timeout (Some t)));;
    on_conn (sock_on_data p);;
    mret false).

(** [send(command)]; [accepted] is what [this.conn.write] answers. *)
Definition send (command : Command) (accepted : bool) : M nat :=
  async (fun q =>
    e ← this;
    if bool_decide (state e = connected) then
      match command with
      | Many cs => on_conn (sock_write (join LF cs ++ LF))
      | Single c => on_conn (sock_write (c ++ LF))
      end;;
      let flushed := accepted in
      if negb flushed then
        on_conn (sock_once_drain q);;
        mret false
      else mret true
    else throw (Error (str "Connection not established"))).

(** [on(event, listener)] *)
Definition on (event : jsstring) (listener : Listener) : M unit :=
  if bool_decide (event = str "message") then
    modify (with_self (set_messageHooks (Some listener)))
  else if bool_decide (event = str "close") then
    modify (with_self (set_closeHook (Some listener)))
  else if bool_decide (event = str "error") then
    modify (with_self (set_errorHook (Some listener)))
  else mret tt.

(** ** The event loop *)

(** What can happen to an instance: a method call by its owner, or an
    event of the runtime. *)
Inductive Call :=
| Connect
| Disconnect
| Send (command : Command) (accepted : bool)
| On (event : jsstring) (listener : Listener).

Inductive Signal :=
| TimerFires (t : nat)
| Data (s : nat) (data : jsstring)
| Close (s : nat) (hadError : bool)
| SocketError (s : nat) (err : jsstring)
| Drain (s : nat).

Inductive Event :=
| ByCaller (c : Call)
| ByRuntime (s : Signal).

Coercion ByCaller : Call >-> Event.
Coercion ByRuntime : Signal >-> Event.

Definition call (c : Call) : M unit :=
  match c with
  | Connect => connect;; mret tt
  | Disconnect => disconnect
  | Send command accepted => send command accepted;; mret tt
  | On event listener => on event listener
  end.

(** A timer runs its callback once, and only while scheduled; a socket
    event runs the listener registered on that socket; ['drain'] runs and
    drops the [once] listeners. *)
Definition signal (s : Signal) : M unit :=
  match s with
  | TimerFires t =>
      w ← get;
      match timers w !! t with
      | Some tm =>
          if timer_armed tm then
            modify (with_timers (alter disarm t));;
            on_timeout (timer_owner tm)
          else mret tt
      | None => mret tt
      end
  | Data s data =>
      w ← get;
      match sockets w !! s with
      | Some sk =>
          match sock_data sk with
          | Some p => on_data p data
          | None => mret tt
          end
      | None => mret tt
      end
  | Close s hadError =>
      w ← get;
      match sockets w !! s with
      | Some _ => call_closeHook hadError
      | None => mret tt
      end
  | SocketError s err =>
      w ← get;
      match sockets w !! s with
      | Some _ => call_errorHook err
      | None => mret tt
      end
  | Drain s =>
      w ← get;
      match sockets w !! s with
      | Some sk =>
          modify (with_sockets (alter sock_drained s));;
          modify (with_promises (fun ps =>
            foldr (fun q ps => alter (settle Fulfilled) q ps) ps (sock_drain sk)))
      | None => mret tt
      end
  end.

Definition dispatch (ev : Event) : M unit :=
  match ev with
  | ByCaller c => call c
  | ByRuntime s => signal s
  end.

Definition step (ev : Event) (w : World) : World := exec (dispatch ev) w.

Definition run (evs : list Event) (w : World) : World :=
  foldl (fun w ev => step ev w) w evs.

(** The worlds an instance made with options [o] can get into. *)
Inductive reachable (o : Options.t) : World -> Prop :=
| reachable_new : reachable o (new_world o)
| reachable_step ev w : reachable o w -> reachable o (step ev w).

(** ** The static helper [quickfire]

    [quickfire] is an [async] function: it runs until an [await] on a
    promise that is still pending, and goes on when that promise settles.
    Its instance [econ] is local, so only the runtime acts on it. *)

(** What [quickfire] resolves to: [undefined], or the array [responses]. *)
Inductive QfValue :=
| Undefined
| Responses.

Inductive QfPhase :=
| AwaitConnect (p : nat)
| AwaitSend (collecting : bool) (q : nat)
| AwaitWindow
| Returned (v : QfValue)
| Failed (e : JsError)
| Uncaught (e : JsError).

Record Quickfire := mkQuickfire {
  qf_world : World;
  qf_command : Command;
  qf_collectResponsesFor : Z;
  qf_accepted : bool;
  qf_phase : QfPhase }.

Definition qf_set (w : World) (ph : QfPhase) (q : Quickfire) : Quickfire :=
  mkQuickfire w (qf_command q) (qf_collectResponsesFor q) (qf_accepted q) ph.

(** The contents of the array [responses]: what its [push] closure was
    called with. *)
Definition responses (w : World) : list jsstring :=
  omap (fun c => match c with
                 | MessageCall PushResponses msg => Some msg
                 | _ => None
                 end) (calls w).

(** A number used as a condition. *)
Definition truthy (n : Z) : bool := negb (n =? 0)%Z.

(** From [await econ.send(command)] on, once the promise [q] of [send] has
    settled; [collecting] tells which branch of the [if] the [await] is in.
    In the first branch the window timer is started. *)
Definition qf_after_send (collecting : bool) (q : nat) (qf : Quickfire)
    : Quickfire :=
  let w := qf_world qf in
  match promises w !! q with
  | Some Fulfilled =>
      if collecting then qf_set w AwaitWindow qf
      else
        match disconnect w with
        | (Normal _, w') => qf_set w' (Returned Undefined) qf
        | (Throw e, w') => qf_set w' (Failed e) qf
        end
  | Some (Rejected e) => qf_set w (Failed e) qf
  | _ => qf
  end.

(** From [await econ.connect()] on, once the promise [p] of [connect] has
    settled. *)
Definition qf_after_connect (p : nat) (qf : Quickfire) : Quickfire :=
  let w := qf_world qf in
  match promises w !! p with
  | Some Fulfilled =>
      if truthy (qf_collectResponsesFor qf) then
        let w1 := exec (on (str "message") PushResponses) w in
        match send (qf_command qf) (qf_accepted qf) w1 with
        | (Normal q, w2) => qf_after_send true q (qf_set w2 (AwaitSend true q) qf)
        | (Throw e, w2) => qf_set w2 (Failed e) qf
        end
      else
        match send (qf_command qf) (qf_accepted qf) w with
        | (Normal q, w2) => qf_after_send false q (qf_set w2 (AwaitSend false q) qf)
        | (Throw e, w2) => qf_set w2 (Failed e) qf
        end
  | Some (Rejected e) => qf_set w (Failed e) qf
  | _ => qf
  end.

Definition qf_resume (qf : Quickfire) : Quickfire :=
  match qf_phase qf with
  | AwaitConnect p => qf_after_connect p qf
  | AwaitSend collecting q => qf_after_send collecting q qf
  | _ => qf
  end.

(** [quickfire(options, command, collectResponsesFor)]: up to its first
    [await].  An omitted window is [None] and takes the default 0;
    [accepted] is what the socket will answer to the write of [send]. *)
Definition quickfire (o : Options.t) (command : Command)
    (collectResponsesFor : option Z) (accepted : bool) : Quickfire :=
  let collectResponsesFor := default 0%Z collectResponsesFor in
  match connect (new_world o) with
  | (Normal p, w) =>
      qf_resume (mkQuickfire w command collectResponsesFor accepted (AwaitConnect p))
  | (Throw e, w) =>
      mkQuickfire w command collectResponsesFor accepted (Failed e)
  end.

Inductive QfEvent :=
| Runtime (s : Signal)
| WindowElapsed.

(** The callback of the window timer: [econ.disconnect(); resolve(responses)]. *)
Definition qf_window_elapsed (qf : Quickfire) : Quickfire :=
  match qf_phase qf with
  | AwaitWindow =>
      match disconnect (qf_world qf) with
      | (Normal _, w') => qf_set w' (Returned Responses) qf
      | (Throw e, w') => qf_set w' (Uncaught e) qf
      end
  | _ => qf
  end.

Definition qf_step (ev : QfEvent) (qf : Quickfire) : Quickfire :=
  match ev with
  | Runtime s => qf_resume (qf_set (exec (signal s) (qf_world qf)) (qf_phase qf) qf)
  | WindowElapsed => qf_window_elapsed qf
  end.

Definition qf_run (evs : list QfEvent) (qf : Quickfire) : Quickfire :=
  foldl (fun qf ev => qf_step ev qf) qf evs.

(** ** Vocabulary of the properties *)

(** The three lines of the handshake. *)
Definition ENTER_PASSWORD : jsstring := str "Enter password:".
Definition AUTH_OK : jsstring := str "Authentication successful.".
Definition WRONG_PASSWORD : jsstring := str "Wrong password.".

(** A line that ends the handshake. *)
Definition terminal (line : jsstring) : bool :=
  startsWith line AUTH_OK || startsWith line WRONG_PASSWORD.

(** What [send] hands to [write] for a command. *)
Definition wire (command : Command) : jsstring :=
  match command with
  | Many cs => join LF cs ++ LF
  | Single c => c ++ LF
  end.

(** Each command followed by one line terminator. *)
Definition terminated (cs : list jsstring) : jsstring :=
  concat ((fun c => c ++ LF) <$> cs).

(** A socket has its ['data'] listener, and it and its drain waiters hold
    promises that exist ([n] promises have been made); likewise a timer. *)
Definition socket_ok (n : nat) (sk : Socket) : Prop :=
  (∃ p, sock_data sk = Some p ∧ p < n) ∧ Forall (fun q => q < n) (sock_drain sk).

Definition timer_ok (n : nat) (tm : Timer) : Prop := timer_owner tm < n.

(** The fields of an instance and the objects of the runtime agree. *)
Record consistent (w : World) : Prop := {
  live_conn : state (self w) ≠ disconnected →
    ∃ c, conn (self w) = Some c ∧ c < length (sockets w);
  idle_conn : state (self w) = disconnected → conn (self w) = None;
  handshake_timer : state (self w) = connecting →
    ∃ t tm, timeout (self w) = Some t ∧ timers w !! t = Some tm
            ∧ timer_armed tm = true;
  session_timer : state (self w) = connected → timeout (self w) = None;
  sockets_ok : Forall (socket_ok (length (promises w))) (sockets w);
  timers_ok : Forall (timer_ok (length (promises w))) (timers w) }.

(** Events that leave a handshake in progress alone: anything but a new
    [connect], a [disconnect], a timer, or a received line that ends the
    handshake. *)
Definition quiet (ev : Event) : bool :=
  match ev with
  | ByCaller Connect => false
  | ByCaller Disconnect => false
  | ByCaller _ => true
  | ByRuntime (TimerFires _) => false
  | ByRuntime (Data _ data) => negb (terminal (trimEnd data))
  | ByRuntime _ => true
  end.

(** The handshake of the [connect] call with promise [p], socket [c] and
    timer [t] is in progress. *)
Record handshaking (p c t : nat) (w : World) : Prop := {
  hs_state : state (self w) = connecting;
  hs_conn : conn (self w) = Some c;
  hs_socket : c < length (sockets w);
  hs_timeout : timeout (self w) = Some t;
  hs_timer : ∃ tm, timers w !! t = Some tm ∧ timer_owner tm = p
                   ∧ timer_armed tm = true;
  hs_promise : promises w !! p = Some Pending;
  hs_drain : ∀ s sk, sockets w !! s = Some sk → p ∉ sock_drain sk }.

(** The [send] call with promise [q] waits for ['drain'] on socket [c], and
    nothing else holds [q]. *)
Record waiting (q c : nat) (w : World) : Prop := {
  wt_promise : promises w !! q = Some Pending;
  wt_listener : ∃ sk, sockets w !! c = Some sk ∧ q ∈ sock_drain sk;
  wt_only : ∀ s sk, sockets w !! s = Some sk → q ∈ sock_drain sk → s = c;
  wt_data : ∀ s sk, sockets w !! s = Some sk → sock_data sk ≠ Some q;
  wt_timer : ∀ t tm, timers w !! t = Some tm → timer_owner tm ≠ q }.

(** Events other than ['drain'] on socket [c]. *)
Definition not_drain (c : nat) (ev : Event) : bool :=
  match ev with
  | ByRuntime (Drain s) => negb (bool_decide (s = c))
  | _ => true
  end.


(** Sample options: loopback, the default port of the console, no timeout
    given. *)
Definition sample : Options.t :=
  Options.mk None 8303%Z (str "hunter2") None.

(** The options as the first two statements of [connect] leave them: the
    timeout, or 10000 when it is absent or 0; the host, or "localhost" when
    it is absent or empty. *)
Definition normalise (o : Options.t) : Options.t :=
  let o1 := if not_number (Options.timeout o) then default_timeout o else o in
  if not_string (Options.host o1) then default_host o1 else o1.

(** The options of the instance are the ones it was made with, as given or
    normalised, and every socket and timer was made from them. *)
Record configured (o : Options.t) (w : World) : Prop := {
  cf_options : options (self w) = o ∨ options (self w) = normalise o;
  cf_sockets : Forall (fun sk => sock_host sk = Options.host (normalise o)
                                 ∧ sock_port sk = Options.port o) (sockets w);
  cf_timers : Forall (fun tm => timer_delay tm = delay_of (normalise o))
                     (timers w) }.

(** The transport, when there is one, is a socket on which [end] has not
    been called. *)
Definition conn_open (w : World) : Prop :=
  ∀ c, conn (self w) = Some c →
       ∃ sk, sockets w !! c = Some sk ∧ sock_ended sk = false.

(** All the text handed to [write] on a socket, in order. *)
Definition sent (sk : Socket) : jsstring := concat (sock_written sk).

(** The chunks [ds] arriving one after the other on socket [s]. *)
Definition chunks (s : nat) (ds : list jsstring) : list Event :=
  (fun d => ByRuntime (Data s d)) <$> ds.

Definition qf_chunks (s : nat) (ds : list jsstring) : list QfEvent :=
  (fun d => Runtime (Data s d)) <$> ds.

(** A method call other than [on]. *)
Definition not_on (ev : Event) : bool :=
  match ev with
  | ByCaller (On _ _) => false
  | _ => true
  end.

(** How socket number [s] may differ after an event, [transport] being the
    handle before it: where it connects to and its listener are the same,
    the writes are the earlier ones and possibly more, [end] is not undone;
    and a socket that is not the transport has the same writes and is ended
    or not as before. *)
Definition socket_after (transport : option nat) (s : nat) (sk sk' : Socket)
    : Prop :=
  sock_host sk' = sock_host sk ∧ sock_port sk' = sock_port sk
  ∧ sock_data sk' = sock_data sk
  ∧ (∃ more, sock_written sk' = sock_written sk ++ more)
  ∧ (sock_ended sk = true → sock_ended sk' = true)
  ∧ (transport ≠ Some s →
     sock_written sk' = sock_written sk ∧ sock_ended sk' = sock_ended sk).

(** The calls of the message hook in a log are all to listener [l]. *)
Definition messages_to (l : Listener) (cs : list HookCall) : Prop :=
  ∀ l' msg, MessageCall l' msg ∈ cs → l' = l.

Global Arguments str : simpl never.
Global Arguments startsWith : simpl never.
Global Arguments trimEnd : simpl never.
Global Arguments join : simpl never.

(** * Properties *)

(** ** Strings *)

Lemma startsWith_nil s : startsWith s [] = true.
Proof. by destruct s. Qed.

Lemma startsWith_cons c s p ps :
  startsWith (c :: s) (p :: ps) = (c =? p)%N && startsWith s ps.
Proof. done. Qed.

(** Two prefixes of one string start with the same code unit. *)
Lemma startsWith_head s x xs y ys :
  startsWith s (x :: xs) = true → startsWith s (y :: ys) = true → x = y.
Proof.
  destruct s as [|c s]; [done|].
  rewrite !startsWith_cons, !andb_true_iff, !N.eqb_eq.
  intros [-> _] [-> _]. done.
Qed.

Lemma auth_ok_not_prompt line :
  startsWith line AUTH_OK = true → startsWith line ENTER_PASSWORD = false.
Proof.
  intros H. destruct (startsWith line ENTER_PASSWORD) eqn:E; [|done].
  by pose proof (startsWith_head _ _ _ _ _ H E).
Qed.

Lemma wrong_password_not_prompt line :
  startsWith line WRONG_PASSWORD = true → startsWith line ENTER_PASSWORD = false.
Proof.
  intros H. destruct (startsWith line ENTER_PASSWORD) eqn:E; [|done].
  by pose proof (startsWith_head _ _ _ _ _ H E).
Qed.

Lemma wrong_password_not_auth_ok line :
  startsWith line WRONG_PASSWORD = true → startsWith line AUTH_OK = false.
Proof.
  intros H. destruct (startsWith line AUTH_OK) eqn:E; [|done].
  by pose proof (startsWith_head _ _ _ _ _ H E).
Qed.

Lemma trimEnd_cons c s :
  trimEnd (c :: s) =
  if isWhiteSpace c && isEmpty (trimEnd s) then [] else c :: trimEnd s.
Proof. done. Qed.

(** Trimming does not change whether a string starts with a prefix that
    ends in a code unit that is not white space. *)
Lemma startsWith_trimEnd s p :
  match last p with Some c => isWhiteSpace c = false | None => True end →
  startsWith (trimEnd s) p = startsWith s p.
Proof.
  revert p. induction s as [|c s IH]; intros p Hp; [done|].
  destruct p as [|x p]; [by rewrite !startsWith_nil|].
  rewrite trimEnd_cons, startsWith_cons.
  assert (Hs : startsWith (trimEnd s) p = startsWith s p).
  { apply IH. destruct p as [|y p]; [done|]. by rewrite last_cons_cons in Hp. }
  destruct (isWhiteSpace c) eqn:Hc; cbn [andb].
  - destruct (trimEnd s) as [|d r] eqn:Ht; cbn [isEmpty].
    + destruct p as [|y p].
      * cbn in Hp. destruct (N.eqb_spec c x) as [->|]; [congruence|done].
      * rewrite <- Hs. by rewrite andb_false_r.
    + by rewrite startsWith_cons, Hs.
  - by rewrite startsWith_cons, Hs.
Qed.

(** So a trimmed chunk begins with a line of the handshake exactly when the
    chunk does. *)
Lemma handshake_prefix_trimEnd data p :
  p ∈ [ENTER_PASSWORD; AUTH_OK; WRONG_PASSWORD] →
  startsWith (trimEnd data) p = startsWith data p.
Proof.
  intros Hp. apply startsWith_trimEnd.
  repeat (apply elem_of_cons in Hp as [->|Hp]; [by vm_compute|]).
  by apply elem_of_nil in Hp.
Qed.

Lemma join_cons sep x y l : join sep (x :: y :: l) = x ++ sep ++ join sep (y :: l).
Proof. done. Qed.

(** Joining with a terminator and adding one at the end puts one
    terminator after each command. *)
Lemma join_terminated (cs : list jsstring) :
  cs ≠ [] → join LF cs ++ LF = terminated cs.
Proof.
  induction cs as [|x [|y l] IH]; intros Hne; [done| |].
  - unfold terminated. cbn. by rewrite app_nil_r.
  - rewrite join_cons. unfold terminated in *. cbn [fmap list_fmap concat] in *.
    rewrite <- IH by done. by rewrite <- !app_assoc.
Qed.

(** ** What each method does to the world *)

Ltac unfold_M :=
  unfold mbind, M_bind, mret, M_ret, this, get, modify, throw, exec, result in *.

Ltac unfold_methods :=
  unfold connect, send, on, disconnect, on_timeout, on_data, async,
    net_connect, setTimeout, clearTimeout, on_conn, resolve, reject,
    call_messageHooks, call_closeHook, call_errorHook in *.

Lemma alter_snoc {A} (f : A → A) (l : list A) (x : A) :
  alter f (length l) (l ++ [x]) = l ++ [f x].
Proof. by rewrite <- (Nat.add_0_r (length l)), alter_app_r. Qed.

Lemma lookup_snoc {A} (l : list A) (x : A) : (l ++ [x]) !! length l = Some x.
Proof. by rewrite lookup_app_r, Nat.sub_diag. Qed.

Lemma connect_effect w :
  connect w =
  (Normal (length (promises w)),
   let o1 := if not_number (Options.timeout (options (self w)))
             then default_timeout (options (self w)) else options (self w) in
   let o2 := if not_string (Options.host o1) then default_host o1 else o1 in
   mkWorld
     (set_timeout (Some (length (timers w)))
        (set_conn (Some (length (sockets w)))
           (set_state connecting (set_options o2 (self w)))))
     (sockets w ++ [mkSocket (Options.host o2) (Options.port o2)
                             (Some (length (promises w))) [] false []])
     (timers w ++ [mkTimer (length (promises w)) (delay_of o2) true])
     (promises w ++ [Pending])
     (calls w)).
Proof.
  destruct w as [[[h pt pw to] c st er t mh ch eh] ss ts ps cs].
  unfold_methods. unfold_M. cbn.
  destruct (not_number to); cbn; destruct (not_string h); cbn;
    by rewrite alter_snoc.
Qed.

(** With a port that [net.connect] accepts, [connect_checked] is
    [connect]. *)
Lemma connect_checked_legal w :
  legal_port (Options.port (options (self w))) = true →
  connect_checked w = connect w.
Proof.
  intros Hp. rewrite connect_effect.
  destruct w as [[[h pt pw to] c st er t mh ch eh] ss ts ps cs].
  cbn in Hp. unfold connect_checked, net_connect_checked.
  unfold_methods. unfold_M. cbn.
  destruct (not_number to); cbn; destruct (not_string h); cbn;
    rewrite Hp; cbn; by rewrite alter_snoc.
Qed.

(** With another port, [net.connect] throws: the defaults have been filled
    in and the state set, and the promise returned is rejected. *)
Lemma connect_checked_illegal w :
  legal_port (Options.port (options (self w))) = false →
  connect_checked w =
  (Normal (length (promises w)),
   with_promises (fun ps => ps ++ [Rejected RangeError])
     (with_self (fun e => set_state connecting
                            (set_options (normalise (options e)) e)) w)).
Proof.
  intros Hp.
  destruct w as [[[h pt pw to] c st er t mh ch eh] ss ts ps cs].
  cbn in Hp. unfold connect_checked, net_connect_checked, normalise.
  unfold_methods. unfold_M. cbn.
  destruct (not_number to); cbn; destruct (not_string h); cbn;
    rewrite Hp; cbn; by rewrite alter_snoc.
Qed.

Ltac destruct_world w :=
  let w_host := fresh "w_host" in
  let w_port := fresh "w_port" in
  let w_password := fresh "w_password" in
  let w_delay := fresh "w_delay" in
  let w_conn := fresh "w_conn" in
  let w_state := fresh "w_state" in
  let w_error := fresh "w_error" in
  let w_timeout := fresh "w_timeout" in
  let w_mh := fresh "w_mh" in
  let w_ch := fresh "w_ch" in
  let w_eh := fresh "w_eh" in
  let w_ss := fresh "w_ss" in
  let w_ts := fresh "w_ts" in
  let w_ps := fresh "w_ps" in
  let w_cs := fresh "w_cs" in
  destruct w as [[[w_host w_port w_password w_delay] w_conn w_state w_error
                  w_timeout w_mh w_ch w_eh] w_ss w_ts w_ps w_cs];
  cbn in *; subst.

Lemma disconnect_live w c :
  conn (self w) = Some c →
  disconnect w =
  (Normal (), with_self (set_conn None)
                (with_sockets (alter sock_end c)
                   (with_self (set_state disconnected) w))).
Proof.
  intros Hc. destruct_world w. unfold_methods. unfold_M. cbn.
  by rewrite orb_true_r.
Qed.

Lemma disconnect_idle w :
  state (self w) = disconnected → conn (self w) = None →
  disconnect w = (Normal (), w).
Proof.
  intros Hs Hc. by destruct_world w.
Qed.

Lemma on_data_prompt w p data c :
  state (self w) = connecting →
  startsWith (trimEnd data) ENTER_PASSWORD = true →
  conn (self w) = Some c →
  on_data p data w =
  (Normal (),
   with_sockets (alter (sock_write (Options.password (options (self w)) ++ LF)) c) w).
Proof.
  intros Hs Hl Hc. unfold ENTER_PASSWORD in Hl. destruct_world w.
  unfold_methods. unfold_M. cbn. by rewrite Hl.
Qed.

Lemma on_data_auth_ok w p data t :
  state (self w) = connecting →
  startsWith (trimEnd data) AUTH_OK = true →
  timeout (self w) = Some t →
  on_data p data w =
  (Normal (),
   with_promises (alter (settle Fulfilled) p)
     (with_self (set_timeout None)
        (with_timers (alter disarm t)
           (with_self (set_state connected) w)))).
Proof.
  intros Hs Hl Ht. pose proof (auth_ok_not_prompt _ Hl) as Hn.
  unfold AUTH_OK, ENTER_PASSWORD in *. destruct_world w.
  unfold_methods. unfold_M. cbn. by rewrite Hl, Hn.
Qed.

Lemma on_data_wrong_password w p data :
  state (self w) = connecting →
  startsWith (trimEnd data) WRONG_PASSWORD = true →
  on_data p data w =
  (Normal (),
   with_promises (alter (settle (Rejected (Error (str "Wrong password.")))) p) w).
Proof.
  intros Hs Hl. pose proof (wrong_password_not_prompt _ Hl) as Hn.
  pose proof (wrong_password_not_auth_ok _ Hl) as Hn'.
  unfold AUTH_OK, ENTER_PASSWORD, WRONG_PASSWORD in *. destruct_world w.
  unfold_methods. unfold_M. cbn. by rewrite Hl, Hn, Hn'.
Qed.

Lemma on_data_other w p data :
  state (self w) = connecting →
  startsWith (trimEnd data) ENTER_PASSWORD = false →
  startsWith (trimEnd data) AUTH_OK = false →
  startsWith (trimEnd data) WRONG_PASSWORD = false →
  on_data p data w = (Normal (), w).
Proof.
  intros Hs H1 H2 H3. unfold AUTH_OK, ENTER_PASSWORD, WRONG_PASSWORD in *.
  destruct_world w. unfold_methods. unfold_M. cbn. by rewrite H1, H2, H3.
Qed.

Lemma on_data_message w p data :
  state (self w) ≠ connecting →
  on_data p data w =
  (Normal (),
   match messageHooks (self w) with
   | Some l => with_calls (fun cs => cs ++ [MessageCall l (trimEnd data)]) w
   | None => w
   end).
Proof.
  intros Hs. destruct (messageHooks (self w)) eqn:Hm; destruct_world w;
    unfold_methods; unfold_M; cbn; by rewrite bool_decide_eq_false_2.
Qed.

Lemma on_timeout_connecting w p c :
  state (self w) = connecting → conn (self w) = Some c →
  on_timeout p w =
  (Normal (),
   with_promises (alter (settle (Rejected (Error (str "Connection timeout.")))) p)
     (with_self (set_conn None)
        (with_sockets (alter sock_end c)
           (with_self (set_state disconnected) w)))).
Proof.
  intros Hs Hc. unfold on_timeout. unfold_M. rewrite Hs.
  rewrite bool_decide_eq_true_2 by done.
  rewrite (disconnect_live _ _ Hc). by destruct_world w.
Qed.

Lemma on_timeout_other w p :
  state (self w) ≠ connecting → on_timeout p w = (Normal (), w).
Proof.
  intros Hs. unfold on_timeout. unfold_M. by rewrite bool_decide_eq_false_2.
Qed.

Lemma send_connected w command accepted c :
  state (self w) = connected → conn (self w) = Some c →
  send command accepted w =
  (Normal (length (promises w)),
   if accepted then
     with_promises (fun ps => alter (settle Fulfilled) (length (promises w))
                                    (ps ++ [Pending]))
       (with_sockets (alter (sock_write (wire command)) c) w)
   else
     with_promises (fun ps => ps ++ [Pending])
       (with_sockets (alter (sock_once_drain (length (promises w))) c)
          (with_sockets (alter (sock_write (wire command)) c) w))).
Proof.
  intros Hs Hc. destruct_world w. unfold_methods. unfold_M.
  by destruct command, accepted.
Qed.

Lemma send_not_connected w command accepted :
  state (self w) ≠ connected →
  send command accepted w =
  (Normal (length (promises w)),
   with_promises
     (fun ps => ps ++ [Rejected (Error (str "Connection not established"))]) w).
Proof.
  intros Hs. destruct_world w. unfold_methods. unfold_M. cbn.
  rewrite bool_decide_eq_false_2 by done. cbn. by rewrite alter_snoc.
Qed.

(** ** The fields and the runtime stay consistent *)

Lemma length_settle_all (qs : list nat) (ps : list Promise) :
  length (foldr (fun q ps => alter (settle Fulfilled) q ps) ps qs) = length ps.
Proof. induction qs as [|q qs IH]; [done|]. cbn. by rewrite length_alter. Qed.

Lemma socket_ok_mono n m sk : n ≤ m → socket_ok n sk → socket_ok m sk.
Proof.
  intros Hle [(p & Hp & Hlt) Hd]. split.
  - exists p. split; [done|lia].
  - eapply Forall_impl; [done|]. cbn. lia.
Qed.

Lemma sockets_ok_mono n m ss :
  n ≤ m → Forall (socket_ok n) ss → Forall (socket_ok m) ss.
Proof. intros Hle H. eapply Forall_impl; eauto using socket_ok_mono. Qed.

Lemma timers_ok_mono n m ts :
  n ≤ m → Forall (timer_ok n) ts → Forall (timer_ok m) ts.
Proof. intros Hle H. eapply Forall_impl; [done|]. unfold timer_ok. cbn. lia. Qed.

Lemma socket_ok_write n d sk : socket_ok n sk → socket_ok n (sock_write d sk).
Proof. by destruct sk. Qed.
Lemma socket_ok_end n sk : socket_ok n sk → socket_ok n (sock_end sk).
Proof. by destruct sk. Qed.
Lemma socket_ok_drained n sk : socket_ok n sk → socket_ok n (sock_drained sk).
Proof. destruct sk. intros [? ?]. by split. Qed.
Lemma socket_ok_once_drain n q sk :
  q < n → socket_ok n sk → socket_ok n (sock_once_drain q sk).
Proof.
  destruct sk. intros Hq [? ?]. split; [done|]. cbn in *.
  apply Forall_app. split; [done|]. by apply Forall_singleton.
Qed.
Lemma timer_ok_disarm n tm : timer_ok n tm → timer_ok n (disarm tm).
Proof. by destruct tm. Qed.

Lemma new_world_consistent o : consistent (new_world o).
Proof. by split. Qed.

Lemma connect_consistent w : consistent w → consistent (exec connect w).
Proof.
  intros [H1 H2 H3 H4 H5 H6]. unfold exec. rewrite connect_effect.
  destruct_world w. split; cbn; rewrite ?length_app; cbn; try done.
  - intros _. eexists. split; [done|]. lia.
  - intros _. eexists _, _. split; [done|]. by rewrite lookup_snoc.
  - apply Forall_app. split; [eapply sockets_ok_mono; [|done]; lia|].
    apply Forall_singleton. split; [|done]. eexists. split; [done|]. cbn. lia.
  - apply Forall_app. split; [eapply timers_ok_mono; [|done]; lia|].
    apply Forall_singleton. unfold timer_ok. cbn. lia.
Qed.

Lemma disconnect_consistent w : consistent w → consistent (exec disconnect w).
Proof.
  intros Hw. unfold exec.
  destruct (decide (state (self w) = disconnected)) as [Hs|Hs].
  - by rewrite disconnect_idle by auto using idle_conn.
  - destruct (live_conn _ Hw Hs) as (c & Hc & Hlt).
    rewrite (disconnect_live _ _ Hc). destruct Hw as [H1 H2 H3 H4 H5 H6].
    destruct_world w. split; cbn; try done.
    apply Forall_alter; auto using socket_ok_end.
Qed.

Lemma send_consistent command accepted w :
  consistent w → consistent (exec (send command accepted) w).
Proof.
  intros Hw. unfold exec.
  destruct (decide (state (self w) = connected)) as [Hs|Hs].
  - destruct (live_conn _ Hw) as (c & Hc & Hlt); [congruence|].
    rewrite (send_connected _ _ _ _ Hs Hc).
    destruct Hw as [H1 H2 H3 H4 H5 H6]. destruct_world w.
    destruct accepted; split; cbn; rewrite ?length_alter, ?length_app; cbn;
      try done; try (eapply timers_ok_mono; [|done]; lia).
    + apply Forall_alter; [|auto using socket_ok_write].
      eapply sockets_ok_mono; [|done]; lia.
    + apply Forall_alter; [|intros; apply socket_ok_once_drain; [lia|done]].
      apply Forall_alter; [|auto using socket_ok_write].
      eapply sockets_ok_mono; [|done]; lia.
  - rewrite (send_not_connected _ _ _ Hs).
    destruct Hw as [H1 H2 H3 H4 H5 H6]. destruct_world w.
    split; cbn; rewrite ?length_app; cbn; try done.
    + eapply sockets_ok_mono; [|done]; lia.
    + eapply timers_ok_mono; [|done]; lia.
Qed.

Lemma on_consistent event listener w :
  consistent w → consistent (exec (on event listener) w).
Proof.
  intros [H1 H2 H3 H4 H5 H6]. destruct_world w. unfold on. unfold_M.
  repeat case_bool_decide; by split.
Qed.

Lemma on_timeout_consistent p t w :
  consistent w →
  consistent (exec (on_timeout p) (with_timers (alter disarm t) w)).
Proof.
  intros Hw. unfold exec.
  destruct (decide (state (self w) = connecting)) as [Hs|Hs].
  - destruct (live_conn _ Hw) as (c & Hc & Hlt); [congruence|].
    rewrite (on_timeout_connecting _ _ c) by by destruct_world w.
    destruct Hw as [H1 H2 H3 H4 H5 H6]. destruct_world w.
    split; cbn; rewrite ?length_alter; try done.
    + apply Forall_alter; auto using socket_ok_end.
    + apply Forall_alter; auto using timer_ok_disarm.
  - rewrite on_timeout_other by by destruct_world w.
    destruct Hw as [H1 H2 H3 H4 H5 H6]. destruct_world w.
    split; cbn; try done. apply Forall_alter; auto using timer_ok_disarm.
Qed.

Lemma on_data_consistent p data w :
  consistent w → consistent (exec (on_data p data) w).
Proof.
  intros Hw. unfold exec.
  destruct (decide (state (self w) = connecting)) as [Hs|Hs].
  - destruct (live_conn _ Hw) as (c & Hc & Hlt); [congruence|].
    destruct (handshake_timer _ Hw Hs) as (t & tm & Ht & Hl & Ha).
    destruct (startsWith (trimEnd data) ENTER_PASSWORD) eqn:E1;
      [|destruct (startsWith (trimEnd data) AUTH_OK) eqn:E2;
        [|destruct (startsWith (trimEnd data) WRONG_PASSWORD) eqn:E3]].
    + rewrite (on_data_prompt _ _ _ c) by done.
      destruct Hw as [H1 H2 H3 H4 H5 H6]. destruct_world w.
      split; cbn; rewrite ?length_alter; try done.
      apply Forall_alter; auto using socket_ok_write.
    + rewrite (on_data_auth_ok _ _ _ t) by done.
      destruct Hw as [H1 H2 H3 H4 H5 H6]. destruct_world w.
      split; cbn; rewrite ?length_alter; try done; [eauto|].
      apply Forall_alter; auto using timer_ok_disarm.
    + rewrite on_data_wrong_password by done.
      destruct Hw as [H1 H2 H3 H4 H5 H6]. destruct_world w.
      split; cbn; rewrite ?length_alter; done.
    + by rewrite on_data_other.
  - rewrite on_data_message by done.
    destruct Hw as [H1 H2 H3 H4 H5 H6]. destruct_world w.
    case_match; by split.
Qed.

Lemma step_consistent ev w : consistent w → consistent (step ev w).
Proof.
  intros Hw. destruct ev as [[| |command accepted|event l]|[t|s data|s b|s err|s]];
    unfold step, exec; cbn.
  - apply connect_consistent in Hw. unfold exec in Hw. unfold_M.
    by destruct (connect w) as [[?|?] ?].
  - by apply disconnect_consistent.
  - apply (send_consistent command accepted) in Hw. unfold exec in Hw. unfold_M.
    by destruct (send command accepted w) as [[?|?] ?].
  - by apply on_consistent.
  - unfold_M. destruct (timers w !! t) as [tm|]; [|done].
    destruct (timer_armed tm); [|done]. by apply on_timeout_consistent.
  - unfold_M. destruct (sockets w !! s) as [sk|]; [|done].
    destruct (sock_data sk); [|done]. by apply on_data_consistent.
  - unfold_M. destruct (sockets w !! s) as [sk|]; [|done].
    destruct Hw as [H1 H2 H3 H4 H5 H6]. destruct_world w.
    unfold call_closeHook. unfold_M. cbn. case_match; by split.
  - unfold_M. destruct (sockets w !! s) as [sk|]; [|done].
    destruct Hw as [H1 H2 H3 H4 H5 H6]. destruct_world w.
    unfold call_errorHook. unfold_M. cbn. case_match; by split.
  - unfold_M. destruct (sockets w !! s) as [sk|]; [|done].
    destruct Hw as [H1 H2 H3 H4 H5 H6]. destruct_world w.
    split; cbn; rewrite ?length_alter, ?length_settle_all; try done.
    apply Forall_alter; auto using socket_ok_drained.
Qed.

Lemma reachable_consistent o w : reachable o w → consistent w.
Proof.
  induction 1; auto using new_world_consistent, step_consistent.
Qed.

(** ** Events as method runs *)

Lemma step_connect w : step Connect w = exec connect w.
Proof.
  unfold step, exec. cbn. unfold_M. by destruct (connect w) as [[?|?] ?].
Qed.

Lemma step_send command accepted w :
  step (Send command accepted) w = exec (send command accepted) w.
Proof.
  unfold step, exec. cbn. unfold_M.
  by destruct (send command accepted w) as [[?|?] ?].
Qed.

Lemma step_data w s sk p data :
  sockets w !! s = Some sk → sock_data sk = Some p →
  step (Data s data) w = exec (on_data p data) w.
Proof. intros Hs Hp. unfold step, exec. cbn. unfold_M. by rewrite Hs, Hp. Qed.

Lemma step_timer w t tm :
  timers w !! t = Some tm → timer_armed tm = true →
  step (TimerFires t) w =
  exec (on_timeout (timer_owner tm)) (with_timers (alter disarm t) w).
Proof. intros Ht Ha. unfold step, exec. cbn. unfold_M. by rewrite Ht, Ha. Qed.

Lemma step_timer_cancelled w t tm :
  timers w !! t = Some tm → timer_armed tm = false →
  step (TimerFires t) w = w.
Proof. intros Ht Ha. unfold step, exec. cbn. unfold_M. by rewrite Ht, Ha. Qed.

(** ** connect *)

(** C3, as amended: [connect] has no check of the state.  With a port that
    [net.connect] accepts (0..65535), and called in any state, also
    [connecting] or [connected], it does not fail: it returns a new pending
    promise, sets the state to [connecting], opens one more socket and makes
    it the transport (the sockets opened before are left as they were), and
    starts one more timer (the timers started before stay scheduled as they
    were).  Here [connect_checked], the method with the argument check of
    [net.connect], does what [connect] does. *)
Theorem connect_in_any_state w :
  legal_port (Options.port (options (self w))) = true →
  let w' := step Connect w in
  let p := length (promises w) in
  connect_checked w = (Normal p, w')
  ∧ result connect w = Normal p
  ∧ promises w' = promises w ++ [Pending]
  ∧ state (self w') = connecting
  ∧ conn (self w') = Some (length (sockets w))
  ∧ (∃ sk, sockets w' = sockets w ++ [sk] ∧ sock_data sk = Some p
            ∧ sock_written sk = [] ∧ sock_ended sk = false)
  ∧ timeout (self w') = Some (length (timers w))
  ∧ (∃ tm, timers w' = timers w ++ [tm] ∧ timer_owner tm = p
            ∧ timer_armed tm = true).
Proof.
  intros Hp. cbn zeta. rewrite (connect_checked_legal _ Hp), step_connect.
  unfold exec, result. rewrite connect_effect.
  destruct_world w. repeat split; eauto 10.
Qed.

Lemma connect_in_any_state_witness :
  let w := run [ByCaller Connect;
                ByRuntime (Data 0 (str "Authentication successful." ++ LF))]
               (new_world sample) in
  let w' := step Connect w in
  (legal_port (Options.port (options (self w))) = true
   ∧ state (self w) = connected)
  ∧ promises w' = promises w ++ [Pending]
  ∧ state (self w') = connecting
  ∧ conn (self w') = Some 1.
Proof.
  cbn zeta. split; [by vm_compute|].
  pose proof (connect_in_any_state
                (run [ByCaller Connect;
                      ByRuntime (Data 0 (str "Authentication successful." ++ LF))]
                     (new_world sample)) eq_refl)
    as (_ & _ & H2 & H3 & H4 & _).
  exact (conj H2 (conj H3 H4)).
Defined.

(** C3 as stated fails: a second [connect] during the handshake is not
    rejected; two sockets are open and two timers run. *)
Lemma connect_twice_two_handshakes :
  let w := run [ByCaller Connect; ByCaller Connect] (new_world sample) in
  promises w = [Pending; Pending]
  ∧ state (self w) = connecting
  ∧ conn (self w) = Some 1
  ∧ sock_ended <$> sockets w = [false; false]
  ∧ timer_armed <$> timers w = [true; true].
Proof. by vm_compute. Qed.

(** ** send *)

(** C9: [send] called while the state is [disconnected] or [connecting]
    fails with the error "Connection not established", and nothing is
    written: the sockets, like everything but the promise of the call, are
    as before. *)
Theorem send_when_not_connected w command accepted :
  state (self w) = disconnected ∨ state (self w) = connecting →
  let w' := step (Send command accepted) w in
  result (send command accepted) w = Normal (length (promises w))
  ∧ promises w' =
      promises w ++ [Rejected (Error (str "Connection not established"))]
  ∧ sockets w' = sockets w
  ∧ self w' = self w ∧ timers w' = timers w ∧ calls w' = calls w.
Proof.
  intros Hs. cbn zeta. rewrite step_send. unfold exec, result.
  rewrite send_not_connected by (destruct Hs; congruence).
  by destruct_world w.
Qed.

Lemma send_when_not_connected_witness :
  let w := step Connect (new_world sample) in
  let command := Single (str "status") in
  (state (self w) = disconnected ∨ state (self w) = connecting)
  ∧ promises (step (Send command true) w)
    = [Pending; Rejected (Error (str "Connection not established"))]
  ∧ sockets (step (Send command true) w) = sockets w.
Proof.
  cbn zeta. split; [right; reflexivity|].
  pose proof (send_when_not_connected (step Connect (new_world sample))
                (Single (str "status")) true) as H.
  cbn zeta in H. destruct H as (_ & Hp & Hss & _); [right; reflexivity|].
  split; [exact Hp|exact Hss].
Defined.

(** C8: while [connected], [send] makes one call of [write] on the
    transport and on no other socket.  What it writes is the commands joined
    by the line terminator, with one terminator at the end: each command
    followed by one terminator; a single command is followed by one
    terminator. *)
Theorem send_writes_commands o w command accepted :
  reachable o w → state (self w) = connected →
  let w' := step (Send command accepted) w in
  ∃ c sk sk' data,
    conn (self w) = Some c
    ∧ sockets w !! c = Some sk
    ∧ sockets w' !! c = Some sk'
    ∧ sock_written sk' = sock_written sk ++ [data]
    ∧ (∀ s, s ≠ c → sockets w' !! s = sockets w !! s)
    ∧ match command with
      | Single c => data = c ++ LF
      | Many cs => data = join LF cs ++ LF ∧ (cs ≠ [] → data = terminated cs)
      end.
Proof.
  intros Hw%reachable_consistent Hs. cbn zeta. rewrite step_send. unfold exec.
  destruct (live_conn _ Hw) as (c & Hc & Hlt); [congruence|].
  destruct (lookup_lt_is_Some_2 _ _ Hlt) as [sk Hsk].
  rewrite (send_connected _ _ _ _ Hs Hc).
  exists c, sk. destruct_world w.
  destruct accepted; cbn.
  - exists (sock_write (wire command) sk), (wire command).
    repeat split; try done.
    + by rewrite list_lookup_alter_eq, Hsk.
    + by destruct sk.
    + intros s Hne. by rewrite list_lookup_alter_ne.
    + destruct command; [done|]. split; [done|]. apply join_terminated.
  - eexists (sock_once_drain _ (sock_write (wire command) sk)), (wire command).
    repeat split; try done.
    + by rewrite !list_lookup_alter_eq, Hsk.
    + by destruct sk.
    + intros s Hne. by rewrite !list_lookup_alter_ne.
    + destruct command; [done|]. split; [done|]. apply join_terminated.
Qed.

Lemma send_writes_commands_witness :
  let w := step (Data 0 (AUTH_OK ++ LF)) (step Connect (new_world sample)) in
  let command := Many [str "status"; str "echo hi"] in
  state (self w) = connected
  ∧ ∃ c sk sk' data,
      conn (self w) = Some c
      ∧ sockets w !! c = Some sk
      ∧ sockets (step (Send command true) w) !! c = Some sk'
      ∧ sock_written sk' = sock_written sk ++ [data]
      ∧ (∀ s, s ≠ c → sockets (step (Send command true) w) !! s = sockets w !! s)
      ∧ data = join LF [str "status"; str "echo hi"] ++ LF
      ∧ ([str "status"; str "echo hi"] ≠ [] →
         data = terminated [str "status"; str "echo hi"]).
Proof.
  cbn zeta. split; [reflexivity|].
  apply (send_writes_commands sample _ (Many [str "status"; str "echo hi"]) true).
  - repeat constructor.
  - reflexivity.
Defined.

(** The example of the specification: exactly "status\necho hi\n", in one
    write. *)
Example send_status_echo_hi :
  let w := step (Data 0 (AUTH_OK ++ LF)) (step Connect (new_world sample)) in
  sock_written <$> sockets (step (Send (Many [str "status"; str "echo hi"]) true) w)
  = [[str "status" ++ LF ++ str "echo hi" ++ LF]].
Proof. by vm_compute. Qed.

(** ** The timer handle *)

(** C4, as amended: for an instance with a port that [net.connect] accepts
    (0..65535), in every world the instance can get into, while the state is
    [connecting] the field [timeout] holds a timer that is still scheduled,
    and while it is [connected] the field is null.  While [disconnected] the
    field may hold a handle or not. *)
Theorem timer_handle_by_state o w :
  legal_port (Options.port o) = true →
  reachable o w →
  (state (self w) = connecting →
   ∃ t tm, timeout (self w) = Some t ∧ timers w !! t = Some tm
           ∧ timer_armed tm = true)
  ∧ (state (self w) = connected → timeout (self w) = None).
Proof.
  intros _ Hw%reachable_consistent. split.
  - apply handshake_timer, Hw.
  - apply session_timer, Hw.
Qed.

Lemma timer_handle_by_state_witness :
  let w := step Connect (new_world sample) in
  (legal_port (Options.port sample) = true ∧ reachable sample w)
  ∧ (state (self w) = connecting →
     ∃ t tm, timeout (self w) = Some t ∧ timers w !! t = Some tm
             ∧ timer_armed tm = true)
  ∧ (state (self w) = connected → timeout (self w) = None).
Proof.
  cbn zeta.
  assert (Hr : reachable sample (step Connect (new_world sample)))
    by repeat constructor.
  split; [exact (conj eq_refl Hr)|].
  exact (timer_handle_by_state sample _ eq_refl Hr).
Defined.

(** C4 as stated fails: after [disconnect] during the handshake, and after
    the timer has fired, the state is [disconnected] and the handle is still
    there; in the first case its timer is even still scheduled. *)
Lemma disconnected_with_timer_handle :
  let w1 := run [ByCaller Connect; ByCaller Disconnect] (new_world sample) in
  let w2 := run [ByCaller Connect; ByRuntime (TimerFires 0)] (new_world sample) in
  (state (self w1) = disconnected ∧ timeout (self w1) = Some 0
   ∧ timer_armed <$> timers w1 = [true])
  ∧ (state (self w2) = disconnected ∧ timeout (self w2) = Some 0).
Proof. by vm_compute. Qed.

(** A consequence of the handle and its timer staying after [disconnect]:
    the timer of an earlier [connect] can fire during a later handshake.  It
    then ends that handshake and rejects the earlier promise; the later
    timer finds the state [disconnected] and the later promise stays
    pending. *)
Remark earlier_timer_ends_later_handshake :
  let w := run [ByCaller Connect; ByCaller Disconnect; ByCaller Connect;
                ByRuntime (TimerFires 0); ByRuntime (TimerFires 1)]
               (new_world sample) in
  state (self w) = disconnected
  ∧ promises w = [Rejected (Error (str "Connection timeout.")); Pending].
Proof. by vm_compute. Qed.

(** ** Received chunks *)

(** C1, as amended: there is no line buffer.  A received chunk is one line
    by itself, its text with the white space at the end trimmed, and is
    processed once, whatever came before it.  Outside the handshake it gives
    one call of the message hook, if there is one, with the whole trimmed
    text, however many lines that holds, and changes nothing else.  During
    the handshake a chunk that does not itself begin with one of the three
    handshake lines is dropped: nothing of it is kept for the next chunk. *)
Theorem chunk_is_one_line w s sk p data :
  sockets w !! s = Some sk → sock_data sk = Some p →
  let w' := step (Data s data) w in
  (state (self w) ≠ connecting →
   w' = match messageHooks (self w) with
        | Some l => with_calls (fun cs => cs ++ [MessageCall l (trimEnd data)]) w
        | None => w
        end)
  ∧ (state (self w) = connecting →
     startsWith (trimEnd data) ENTER_PASSWORD = false →
     startsWith (trimEnd data) AUTH_OK = false →
     startsWith (trimEnd data) WRONG_PASSWORD = false →
     w' = w).
Proof.
  intros Hs Hp. cbn zeta. rewrite (step_data _ _ _ _ _ Hs Hp). unfold exec.
  split.
  - intros Hst. by rewrite on_data_message.
  - intros Hst H1 H2 H3. by rewrite on_data_other.
Qed.

Lemma chunk_is_one_line_witness :
  let w := run [ByCaller Connect; ByRuntime (Data 0 (AUTH_OK ++ LF));
                ByCaller (On (str "message") (Callback 0))] (new_world sample) in
  let data := str "first" ++ LF ++ str "second" ++ LF in
  state (self w) ≠ connecting
  ∧ step (Data 0 data) w
    = with_calls
        (fun cs => cs ++ [MessageCall (Callback 0) (str "first" ++ LF ++ str "second")]) w.
Proof.
  cbn zeta. split; [by vm_compute|].
  refine (proj1 (chunk_is_one_line _ 0 _ 0 (str "first" ++ LF ++ str "second" ++ LF)
                   _ _) _); [reflexivity|reflexivity|by vm_compute].
Defined.

(** C1 as stated fails: "Authentication successful." split over two chunks
    is not put together again, the handshake does not complete, while the
    same text in one chunk completes it; and a chunk of two lines gives one
    call of the message hook, not two. *)
Lemma split_line_not_reassembled :
  let w := step Connect (new_world sample) in
  let w2 := run [ByRuntime (Data 0 (str "Authentication success"));
                 ByRuntime (Data 0 (str "ful." ++ LF))] w in
  let w1 := step (Data 0 (str "Authentication successful." ++ LF)) w in
  let w3 := run [ByCaller (On (str "message") (Callback 0));
                 ByRuntime (Data 0 (str "first" ++ LF ++ str "second" ++ LF))] w1 in
  (state (self w2) = connecting ∧ promises w2 = [Pending])
  ∧ (state (self w1) = connected ∧ promises w1 = [Fulfilled])
  ∧ calls w3 = [MessageCall (Callback 0) (str "first" ++ LF ++ str "second")].
Proof. by vm_compute. Qed.

(** ** The handshake *)

(** C5, as amended: during the handshake each received chunk is taken as
    one line, its text with the white space at the end trimmed.  A chunk
    that begins with "Enter password:" makes one write of the password
    followed by the line terminator on the transport and changes nothing
    else, so the state stays.  A chunk that begins with
    "Authentication successful." stops the timer of the handle and clears
    the handle, sets the state to [connected] and resolves the promise of
    the [connect] that opened the socket the chunk came from: that promise
    is fulfilled if it was pending, and stays as it was settled otherwise.
    A chunk that begins with none of the three handshake lines changes
    nothing, whatever lines it holds further on.  Whatever the chunk, the
    message hook is not called. *)
Theorem handshake_lines o w s sk p data :
  reachable o w →
  sockets w !! s = Some sk → sock_data sk = Some p →
  state (self w) = connecting →
  let line := trimEnd data in
  let w' := step (Data s data) w in
  (startsWith line ENTER_PASSWORD = true →
   ∃ c, conn (self w) = Some c ∧ c < length (sockets w)
        ∧ w' = with_sockets
                 (alter (sock_write (Options.password (options (self w)) ++ LF)) c) w)
  ∧ (startsWith line AUTH_OK = true →
     state (self w') = connected
     ∧ (∃ t tm, timeout (self w) = Some t ∧ timers w !! t = Some tm
                ∧ timer_armed tm = true
                ∧ timers w' !! t = Some (disarm tm))
     ∧ timeout (self w') = None
     ∧ promises w' = alter (settle Fulfilled) p (promises w)
     ∧ (promises w !! p = Some Pending → promises w' !! p = Some Fulfilled)
     ∧ (∀ v, promises w !! p = Some v → v ≠ Pending →
             promises w' !! p = Some v))
  ∧ (startsWith line ENTER_PASSWORD = false →
     startsWith line AUTH_OK = false →
     startsWith line WRONG_PASSWORD = false →
     w' = w)
  ∧ calls w' = calls w.
Proof.
  intros Hw%reachable_consistent Hs Hp Hst. cbn zeta.
  rewrite (step_data _ _ _ _ _ Hs Hp). unfold exec.
  destruct (live_conn _ Hw) as (c & Hc & Hlt); [congruence|].
  destruct (handshake_timer _ Hw Hst) as (t & tm & Ht & Hl & Ha).
  split; [|split; [|split]].
  - intros H1. exists c. by rewrite (on_data_prompt _ _ _ c).
  - intros H2. rewrite (on_data_auth_ok _ _ _ t) by done.
    destruct_world w. repeat split.
    + exists t, tm. by rewrite list_lookup_alter_eq, Hl.
    + intros Hq. by rewrite list_lookup_alter_eq, Hq.
    + intros v Hq Hv. rewrite list_lookup_alter_eq, Hq. by destruct v.
  - intros H1 H2 H3. by rewrite on_data_other.
  - destruct (startsWith (trimEnd data) ENTER_PASSWORD) eqn:E1;
      [|destruct (startsWith (trimEnd data) AUTH_OK) eqn:E2;
        [|destruct (startsWith (trimEnd data) WRONG_PASSWORD) eqn:E3]].
    + rewrite (on_data_prompt _ _ _ c) by done. by destruct_world w.
    + rewrite (on_data_auth_ok _ _ _ t) by done. by destruct_world w.
    + rewrite on_data_wrong_password by done. by destruct_world w.
    + by rewrite on_data_other.
Qed.

Lemma handshake_lines_witness :
  let w := step Connect (new_world sample) in
  let w' := step (Data 0 (str "Authentication successful." ++ LF)) w in
  (sockets w !! 0 = Some (mkSocket (Some (str "localhost")) 8303 (Some 0) [] false [])
   ∧ state (self w) = connecting
   ∧ startsWith (trimEnd (str "Authentication successful." ++ LF)) AUTH_OK = true)
  ∧ state (self w') = connected
  ∧ timeout (self w') = None
  ∧ promises w' !! 0 = Some Fulfilled
  ∧ calls w' = calls w.
Proof.
  cbn zeta. split; [by vm_compute|].
  assert (Hr : reachable sample (step Connect (new_world sample)))
    by repeat constructor.
  pose proof (handshake_lines sample _ 0 _ 0
                (str "Authentication successful." ++ LF) Hr
                eq_refl eq_refl eq_refl) as (_ & H2 & _ & H3).
  destruct (H2 eq_refl) as (Hst & _ & Hto & _ & Hp & _).
  exact (conj Hst (conj Hto (conj (Hp eq_refl) H3))).
Defined.

(** C5 as stated fails for a handshake line that is not the first of its
    chunk.  The prompt after a greeting in one chunk is not answered: the
    chunk changes nothing.  The success line after the prompt in one chunk
    is not acted on: the password is written, the state stays [connecting]
    and the promise pending.  And the success line after "Wrong password."
    sets the state to [connected] while the promise of [connect] stays
    rejected. *)
Lemma handshake_line_inside_chunk :
  let w := step Connect (new_world sample) in
  let w1 := step (Data 0 (str "Teeworlds console" ++ LF
                          ++ str "Enter password:" ++ LF)) w in
  let w2 := step (Data 0 (str "Enter password:" ++ LF
                          ++ str "Authentication successful." ++ LF)) w in
  let w3 := run [ByRuntime (Data 0 (str "Wrong password." ++ LF));
                 ByRuntime (Data 0 (str "Authentication successful." ++ LF))] w in
  (state (self w) = connecting ∧ promises w = [Pending])
  ∧ w1 = w
  ∧ (sock_written <$> sockets w2 = [[str "hunter2" ++ LF]]
     ∧ state (self w2) = connecting ∧ promises w2 = [Pending])
  ∧ (state (self w3) = connected
     ∧ promises w3 = [Rejected (Error (str "Wrong password."))]).
Proof. by vm_compute. Qed.

(** ** Failure of connect *)




(** ** The handshake timer *)

Lemma settle_settle v x : settle v (settle v x) = settle v x.
Proof. by destruct x, v. Qed.

(** The promises after the [once('drain')] listeners [qs] ran. *)
Lemma lookup_settle_all (qs : list nat) (ps : list Promise) (q : nat) :
  foldr (fun q ps => alter (settle Fulfilled) q ps) ps qs !! q =
  if decide (q ∈ qs) then settle Fulfilled <$> ps !! q else ps !! q.
Proof.
  induction qs as [|a qs IH]; [done|]. cbn [foldr].
  rewrite list_lookup_alter. destruct (decide (a = q)) as [->|Hne].
  - rewrite decide_True by constructor. rewrite IH.
    case_decide; [|done]. destruct (ps !! q); [|done]. cbn.
    by rewrite settle_settle.
  - rewrite IH. destruct (decide (q ∈ qs)).
    + rewrite decide_True; [done|]. by constructor.
    + rewrite decide_False; [done|]. intros [?|?]%elem_of_cons; congruence.
Qed.

Lemma connect_handshaking w :
  consistent w →
  handshaking (length (promises w)) (length (sockets w)) (length (timers w))
              (exec connect w).
Proof.
  intros Hw. unfold exec. rewrite connect_effect.
  pose proof (sockets_ok _ Hw) as Hss. destruct_world w.
  split; cbn; try done.
  - rewrite length_app. cbn. lia.
  - eexists. by rewrite lookup_snoc.
  - apply lookup_snoc.
  - intros s sk [[? Hl]|[-> <-]]%lookup_snoc_Some; [|by intros ?%elem_of_nil].
    intros Hin. eapply Forall_lookup_1 in Hss as [_ Hd]; [|done].
    eapply Forall_forall in Hd; [|done]. lia.
Qed.

Lemma quiet_handshaking p c t ev w :
  quiet ev = true → handshaking p c t w → handshaking p c t (step ev w).
Proof.
  intros Hq [H1 H2 H3 H4 H5 H6 H7].
  destruct ev as [[| |command accepted|event l]|[t'|s data|s b|s err|s]];
    try done.
  - rewrite step_send. unfold exec.
    rewrite send_not_connected by congruence. destruct_world w.
    split; cbn; try done. by apply lookup_app_l_Some.
  - unfold step, exec. cbn. unfold on. unfold_M. destruct_world w.
    repeat case_bool_decide; by split.
  - cbn in Hq. apply negb_true_iff, orb_false_iff in Hq as [Hq1 Hq2].
    unfold step, exec. cbn. unfold_M.
    destruct (sockets w !! s) as [sk|] eqn:Hs; [|by split].
    destruct (sock_data sk) as [p'|]; [|by split].
    destruct (startsWith (trimEnd data) ENTER_PASSWORD) eqn:E1.
    + rewrite (on_data_prompt _ _ _ c) by done. destruct_world w.
      split; cbn; rewrite ?length_alter; try done.
      intros s' sk' Hl. rewrite list_lookup_alter in Hl.
      case_decide; [subst|by eauto].
      destruct (w_ss !! s') as [x|] eqn:Hx; [|done].
      injection Hl as <-. specialize (H7 _ _ Hx). by destruct x.
    + rewrite on_data_other by done. by split.
  - unfold step, exec. cbn. unfold call_closeHook. unfold_M. destruct_world w.
    repeat case_match; by split.
  - unfold step, exec. cbn. unfold call_errorHook. unfold_M. destruct_world w.
    repeat case_match; by split.
  - unfold step, exec. cbn. unfold_M.
    destruct (sockets w !! s) as [sk|] eqn:Hs; [|by split].
    specialize (H7 _ _ Hs) as Hp. destruct_world w.
    split; cbn; rewrite ?length_alter; try done.
    + by rewrite lookup_settle_all, decide_False.
    + intros s' sk' Hl. rewrite list_lookup_alter in Hl.
      case_decide; [subst|by eauto].
      rewrite Hs in Hl. injection Hl as <-. destruct sk. cbn. by intros ?%elem_of_nil.
Qed.

Lemma quiet_run_handshaking p c t evs w :
  forallb quiet evs = true → handshaking p c t w →
  handshaking p c t (run evs w).
Proof.
  revert w. induction evs as [|ev evs IH]; intros w Hq Hw; [done|].
  cbn in Hq. apply andb_true_iff in Hq as [Hq1 Hq2].
  cbn. apply IH; [done|]. by apply quiet_handshaking.
Qed.

(** C6, as amended: for an instance with a port that [net.connect] accepts
    (0..65535): if, from [connect] on, no line that ends the handshake
    arrives, and until the timer of that [connect] fires there is no other
    [connect], no [disconnect] and no other timer firing, then, when that
    timer fires, the promise of the [connect] is rejected with
    "Connection timeout.", the transport is ended and released, and the
    state is [disconnected].  If instead the line
    "Authentication successful." has been processed by then, the timer has
    been stopped and its firing changes nothing; and in any world where the
    state is not [connecting], as after [disconnect], a timer that fires
    changes neither the instance nor the sockets, the promises or the calls
    of the hooks: it rejects nothing. *)
Theorem handshake_timeout o w evs :
  legal_port (Options.port o) = true →
  reachable o w → forallb quiet evs = true →
  let p := length (promises w) in
  let c := length (sockets w) in
  let t := length (timers w) in
  let w1 := run evs (step Connect w) in
  let w2 := step (TimerFires t) w1 in
  result connect w = Normal p
  ∧ promises w2 !! p = Some (Rejected (Error (str "Connection timeout.")))
  ∧ (∃ sk, sockets w2 !! c = Some sk ∧ sock_ended sk = true)
  ∧ conn (self w2) = None
  ∧ state (self w2) = disconnected
  ∧ (∀ s sk p' data,
       sockets w1 !! s = Some sk → sock_data sk = Some p' →
       startsWith (trimEnd data) AUTH_OK = true →
       let w3 := step (Data s data) w1 in
       state (self w3) = connected ∧ step (TimerFires t) w3 = w3)
  ∧ (∀ w0 t0, state (self w0) ≠ connecting →
       let w0' := step (TimerFires t0) w0 in
       self w0' = self w0 ∧ sockets w0' = sockets w0
       ∧ promises w0' = promises w0 ∧ calls w0' = calls w0).
Proof.
  intros _ Hw%reachable_consistent Hq. cbn zeta.
  split; [unfold result; by rewrite connect_effect|].
  assert (∀ w0 t0, state (self w0) ≠ connecting →
            let w0' := step (TimerFires t0) w0 in
            self w0' = self w0 ∧ sockets w0' = sockets w0
            ∧ promises w0' = promises w0 ∧ calls w0' = calls w0) as Hidle.
  { intros w0 t0 Hs. unfold step, exec. cbn. unfold_M.
    destruct (timers w0 !! t0) as [tm|]; [|done].
    destruct (timer_armed tm); [|done].
    rewrite on_timeout_other by (by destruct_world w0).
    by destruct_world w0. }
  pose proof (connect_handshaking _ Hw) as Hh. rewrite <- step_connect in Hh.
  apply (quiet_run_handshaking _ _ _ evs) in Hh; [|done].
  destruct Hh as [H1 H2 H3 H4 (tm & Ht & Ho & Ha) H6 H7].
  destruct (lookup_lt_is_Some_2 _ _ H3) as [sk Hsk].
  set (w1 := run evs (step Connect w)) in *.
  rewrite (step_timer _ _ _ Ht Ha). unfold exec.
  rewrite (on_timeout_connecting _ _ (length (sockets w))) by by destruct_world w1.
  rewrite Ho. repeat apply conj.
  - destruct_world w1. by rewrite list_lookup_alter_eq, H6.
  - exists (sock_end sk). destruct_world w1.
    rewrite list_lookup_alter_eq, Hsk. by destruct sk.
  - by destruct_world w1.
  - by destruct_world w1.
  - intros s sk' p' data Hs Hp Hl. cbn zeta.
    rewrite (step_data _ _ _ _ _ Hs Hp). unfold exec.
    rewrite (on_data_auth_ok _ _ _ (length (timers w))) by done.
    split; [by destruct_world w1|].
    apply (step_timer_cancelled _ _ (disarm tm)); [|by destruct tm].
    destruct_world w1. by rewrite list_lookup_alter_eq, Ht.
  - exact Hidle.
Qed.

Lemma handshake_timeout_witness :
  let evs := [ByRuntime (Data 0 (str "Enter password:" ++ LF));
              ByRuntime (Data 0 (str "Please wait" ++ LF))] in
  let w2 := step (TimerFires 0) (run evs (step Connect (new_world sample))) in
  (legal_port (Options.port sample) = true ∧ forallb quiet evs = true)
  ∧ promises w2 !! 0 = Some (Rejected (Error (str "Connection timeout.")))
  ∧ (∃ sk, sockets w2 !! 0 = Some sk ∧ sock_ended sk = true)
  ∧ conn (self w2) = None
  ∧ state (self w2) = disconnected.
Proof.
  cbn zeta. split; [by vm_compute|].
  pose proof (handshake_timeout sample (new_world sample)
                [ByRuntime (Data 0 (str "Enter password:" ++ LF));
                 ByRuntime (Data 0 (str "Please wait" ++ LF))]
                eq_refl (reachable_new sample) eq_refl)
    as (_ & H1 & H2 & H3 & H4 & _).
  exact (conj H1 (conj H2 (conj H3 H4))).
Defined.

(** C6 as stated fails when the handshake is given up or started again
    before the timer fires.  After [connect] and [disconnect] no line has
    ended the handshake, and the timer, finding the state [disconnected],
    does nothing: the promise of the [connect] stays pending.  After
    [connect], [disconnect] and a second [connect], the first timer ends the
    second handshake, and the second timer then does nothing: the promise of
    the second [connect] stays pending, with no timer left to fire. *)
Lemma timer_fires_without_rejection :
  let w1 := run [ByCaller Connect; ByCaller Disconnect;
                 ByRuntime (TimerFires 0)] (new_world sample) in
  let w2 := run [ByCaller Connect; ByCaller Disconnect; ByCaller Connect;
                 ByRuntime (TimerFires 0); ByRuntime (TimerFires 1)]
                (new_world sample) in
  (state (self w1) = disconnected ∧ promises w1 = [Pending]
   ∧ timer_armed <$> timers w1 = [false])
  ∧ (state (self w2) = disconnected
     ∧ promises w2 = [Rejected (Error (str "Connection timeout.")); Pending]
     ∧ timer_armed <$> timers w2 = [false; false]).
Proof. by vm_compute. Qed.

(** ** Backpressure *)

Lemma waiting_sockets q c w f s :
  (∀ sk, sockets w !! s = Some sk →
         sock_data (f sk) = sock_data sk
         ∧ (q ∈ sock_drain (f sk) ↔ q ∈ sock_drain sk)) →
  waiting q c w → waiting q c (with_sockets (alter f s) w).
Proof.
  intros Hf [H1 (sk & Hsk & Hin) H3 H4 H5]. destruct_world w.
  split; cbn; try done.
  - rewrite list_lookup_alter. case_decide; [subst|by eauto].
    rewrite Hsk. eexists. split; [done|]. by apply (Hf _ Hsk).
  - intros s' sk' Hl. rewrite list_lookup_alter in Hl.
    case_decide; [subst|by eauto].
    destruct (w_ss !! s') as [x|] eqn:Hx; [|done]. injection Hl as <-.
    intros Hq. apply (Hf _ eq_refl) in Hq. eauto.
  - intros s' sk' Hl. rewrite list_lookup_alter in Hl.
    case_decide; [subst|by eauto].
    destruct (w_ss !! s') as [x|] eqn:Hx; [|done]. injection Hl as <-.
    destruct (Hf _ eq_refl) as [-> _]. eauto.
Qed.

Lemma waiting_timers q c w t :
  waiting q c w → waiting q c (with_timers (alter disarm t) w).
Proof.
  intros [H1 H2 H3 H4 H5]. destruct_world w. split; cbn; try done.
  intros t' tm Hl. rewrite list_lookup_alter in Hl.
  case_decide; [subst|by eauto].
  destruct (w_ts !! t') as [x|] eqn:Hx; [|done]. injection Hl as <-.
  specialize (H5 _ _ Hx). by destruct x.
Qed.

Lemma waiting_promises q c w f :
  f (promises w) !! q = Some Pending →
  waiting q c w → waiting q c (with_promises f w).
Proof. intros Hf [H1 H2 H3 H4 H5]. destruct_world w. by split. Qed.

Lemma waiting_self q c w f : waiting q c w → waiting q c (with_self f w).
Proof. intros [H1 H2 H3 H4 H5]. destruct_world w. by split. Qed.

Lemma waiting_calls q c w f : waiting q c w → waiting q c (with_calls f w).
Proof. intros [H1 H2 H3 H4 H5]. destruct_world w. by split. Qed.

Lemma promises_with_sockets f w : promises (with_sockets f w) = promises w.
Proof. by destruct w. Qed.
Lemma promises_with_timers f w : promises (with_timers f w) = promises w.
Proof. by destruct w. Qed.
Lemma promises_with_self f w : promises (with_self f w) = promises w.
Proof. by destruct w. Qed.
Lemma sockets_with_self f w : sockets (with_self f w) = sockets w.
Proof. by destruct w. Qed.
Lemma sockets_with_timers f w : sockets (with_timers f w) = sockets w.
Proof. by destruct w. Qed.

Ltac world_simpl :=
  repeat first
    [ rewrite promises_with_sockets | rewrite promises_with_timers
    | rewrite promises_with_self | rewrite sockets_with_self
    | rewrite sockets_with_timers ].

Lemma lookup_alter_other {A} (f : A → A) (l : list A) i j x :
  i ≠ j → l !! j = Some x → alter f i l !! j = Some x.
Proof. intros Hne Hl. by rewrite list_lookup_alter_ne. Qed.

Lemma waiting_connect q c w : waiting q c w → waiting q c (exec connect w).
Proof.
  intros [H1 H2 H3 H4 H5]. unfold exec. rewrite connect_effect.
  pose proof (lookup_lt_Some _ _ _ H1) as Hlt. destruct_world w.
  split; cbn.
  - by apply lookup_app_l_Some.
  - destruct H2 as (sk & Hsk & Hin). exists sk. split; [|done].
    by apply lookup_app_l_Some.
  - intros s sk [[? Hl]|[-> <-]]%lookup_snoc_Some; [by eauto|].
    by intros ?%elem_of_nil.
  - intros s sk [[? Hl]|[-> <-]]%lookup_snoc_Some; [by eauto|].
    cbn. intros [=]. lia.
  - intros t tm [[? Hl]|[-> <-]]%lookup_snoc_Some; [by eauto|]. cbn. lia.
Qed.

Lemma waiting_step q c ev w :
  not_drain c ev = true → consistent w → waiting q c w →
  waiting q c (step ev w).
Proof.
  intros Hnd Hw Hq. pose proof (wt_promise _ _ _ Hq) as Hpq.
  pose proof (lookup_lt_Some _ _ _ Hpq) as Hlt.
  destruct ev as [[| |command accepted|event l]|[t|s data|s b|s err|s]].
  - rewrite step_connect. by apply waiting_connect.
  - unfold step, exec. cbn.
    destruct (decide (state (self w) = disconnected)) as [Hs|Hs].
    + by rewrite disconnect_idle by auto using idle_conn.
    + destruct (live_conn _ Hw Hs) as (c' & Hc & _).
      rewrite (disconnect_live _ _ Hc). cbn.
      apply waiting_self, waiting_sockets, waiting_self; [|done].
      intros sk _. by destruct sk.
  - rewrite step_send. unfold exec.
    destruct (decide (state (self w) = connected)) as [Hs|Hs].
    + destruct (live_conn _ Hw) as (c' & Hc & _); [congruence|].
      rewrite (send_connected _ _ _ _ Hs Hc). destruct accepted.
      * apply waiting_promises.
        { world_simpl. rewrite list_lookup_alter_ne by lia.
          by apply lookup_app_l_Some. }
        apply waiting_sockets; [|done]. intros sk _. by destruct sk.
      * apply waiting_promises.
        { world_simpl. by apply lookup_app_l_Some. }
        apply waiting_sockets; [|apply waiting_sockets; [|done]].
        -- intros sk _. destruct sk. cbn. split; [done|].
           rewrite elem_of_app, list_elem_of_singleton. split; [|by left].
           intros [?|?]; [done|lia].
        -- intros sk _. by destruct sk.
    + rewrite (send_not_connected _ _ _ Hs). apply waiting_promises; [|done].
      by apply lookup_app_l_Some.
  - unfold step, exec. cbn. unfold on. unfold_M.
    repeat case_bool_decide; try done; by apply waiting_self.
  - unfold step, exec. cbn. unfold_M.
    destruct (timers w !! t) as [tm|] eqn:Ht; [|done].
    destruct (timer_armed tm); [|done].
    pose proof (wt_timer _ _ _ Hq _ _ Ht) as Hne.
    apply (waiting_timers _ _ _ t) in Hq.
    destruct (decide (state (self w) = connecting)) as [Hs|Hs].
    + destruct (live_conn _ Hw) as (c' & Hc & _); [congruence|].
      rewrite (on_timeout_connecting _ _ c') by by destruct_world w.
      apply waiting_promises.
      { world_simpl. by rewrite list_lookup_alter_ne. }
      apply waiting_self, waiting_sockets, waiting_self; [|done].
      intros sk _. by destruct sk.
    + by rewrite on_timeout_other by by destruct_world w.
  - unfold step, exec. cbn. unfold_M.
    destruct (sockets w !! s) as [sk|] eqn:Hs; [|done].
    destruct (sock_data sk) as [p|] eqn:Hp; [|done].
    assert (p ≠ q) as Hne.
    { intros ->. by apply (wt_data _ _ _ Hq _ _ Hs). }
    destruct (decide (state (self w) = connecting)) as [Hst|Hst].
    + destruct (live_conn _ Hw) as (c' & Hc & _); [congruence|].
      destruct (handshake_timer _ Hw Hst) as (t & tm & Ht & _).
      destruct (startsWith (trimEnd data) ENTER_PASSWORD) eqn:E1;
        [|destruct (startsWith (trimEnd data) AUTH_OK) eqn:E2;
          [|destruct (startsWith (trimEnd data) WRONG_PASSWORD) eqn:E3]].
      * rewrite (on_data_prompt _ _ _ c') by done.
        apply waiting_sockets; [|done]. intros x _. by destruct x.
      * rewrite (on_data_auth_ok _ _ _ t) by done.
        apply waiting_promises.
        { world_simpl. by rewrite list_lookup_alter_ne. }
        by apply waiting_self, waiting_timers, waiting_self.
      * rewrite on_data_wrong_password by done.
        apply waiting_promises; [|done].
        by rewrite list_lookup_alter_ne.
      * by rewrite on_data_other.
    + rewrite on_data_message by done.
      destruct (messageHooks (self w)); [|done]. by apply waiting_calls.
  - unfold step, exec. cbn. unfold call_closeHook. unfold_M.
    destruct (sockets w !! s); [|done].
    destruct (closeHook (self w)); [|done]. by apply waiting_calls.
  - unfold step, exec. cbn. unfold call_errorHook. unfold_M.
    destruct (sockets w !! s); [|done].
    destruct (errorHook (self w)); [|done]. by apply waiting_calls.
  - cbn in Hnd. apply negb_true_iff, bool_decide_eq_false in Hnd.
    unfold step, exec. cbn. unfold_M.
    destruct (sockets w !! s) as [sk|] eqn:Hs; [|done].
    assert (q ∉ sock_drain sk) as Hnin.
    { intros Hin. by apply Hnd, (wt_only _ _ _ Hq _ _ Hs). }
    apply waiting_promises.
    { world_simpl. by rewrite lookup_settle_all, decide_False. }
    apply waiting_sockets; [|done].
    intros x Hx. rewrite Hs in Hx. injection Hx as <-. destruct sk. cbn in *.
    split; [done|]. split; [by intros ?%elem_of_nil|done].
Qed.

Lemma waiting_run q c evs w :
  forallb (not_drain c) evs = true → consistent w → waiting q c w →
  consistent (run evs w) ∧ waiting q c (run evs w).
Proof.
  revert w. induction evs as [|ev evs IH]; intros w Hnd Hw Hq; [done|].
  cbn in Hnd. apply andb_true_iff in Hnd as [Hnd1 Hnd2]. cbn.
  apply IH; [done|by apply step_consistent|by apply waiting_step].
Qed.

Lemma send_waiting w command c :
  consistent w → state (self w) = connected → conn (self w) = Some c →
  waiting (length (promises w)) c (exec (send command false) w).
Proof.
  intros Hw Hs Hc. unfold exec. rewrite (send_connected _ _ _ _ Hs Hc).
  destruct (live_conn _ Hw) as (c' & Hc' & Hlt); [congruence|].
  assert (c' = c) as -> by congruence.
  destruct (lookup_lt_is_Some_2 _ _ Hlt) as [sk Hsk].
  pose proof (sockets_ok _ Hw) as Hss. pose proof (timers_ok _ Hw) as Hts.
  destruct_world w. split; cbn.
  - apply lookup_snoc.
  - rewrite !list_lookup_alter_eq, Hsk. cbn. eexists. split; [done|].
    destruct sk. cbn. apply elem_of_app. right. by constructor.
  - intros s sk'. destruct (decide (s = c)) as [->|Hne]; [done|].
    rewrite !list_lookup_alter_ne by done. intros Hl Hin.
    eapply Forall_lookup_1 in Hss as [_ Hd]; [|done].
    eapply Forall_forall in Hd; [|done]. lia.
  - intros s sk'. destruct (decide (s = c)) as [->|Hne].
    + rewrite !list_lookup_alter_eq, Hsk. cbn. intros [= <-].
      eapply Forall_lookup_1 in Hss as [(p & Hp & ?) _]; [|done].
      destruct sk. cbn in *. rewrite Hp. intros [=]. lia.
    + rewrite !list_lookup_alter_ne by done.
      intros Hl. eapply Forall_lookup_1 in Hss as [(p & Hp & ?) _]; [|done].
      rewrite Hp. intros [=]. lia.
  - intros t tm Hl. eapply Forall_lookup_1 in Hts; [|done].
    unfold timer_ok in Hts. lia.
Qed.

(** C7: a [send] made while [connected] returns a promise.  When the
    transport took the write without backpressure the promise is fulfilled
    at once.  When [write] answered [false], the promise is pending after
    the call, stays pending through whatever happens other than ['drain'] on
    the transport, and is fulfilled by the ['drain'] of the transport. *)
Theorem send_backpressure o w command accepted evs :
  reachable o w → state (self w) = connected →
  let q := length (promises w) in
  let w' := step (Send command accepted) w in
  result (send command accepted) w = Normal q
  ∧ (accepted = true → promises w' !! q = Some Fulfilled)
  ∧ (accepted = false →
     ∃ c, conn (self w) = Some c
       ∧ promises w' !! q = Some Pending
       ∧ (forallb (not_drain c) evs = true →
          promises (run evs w') !! q = Some Pending
          ∧ promises (step (Drain c) (run evs w')) !! q = Some Fulfilled)).
Proof.
  intros Hw%reachable_consistent Hs. cbn zeta.
  destruct (live_conn _ Hw) as (c & Hc & Hlt); [congruence|].
  rewrite step_send. unfold result.
  split; [by rewrite (send_connected _ _ _ _ Hs Hc)|]. split.
  - intros ->. unfold exec. rewrite (send_connected _ _ _ _ Hs Hc).
    destruct_world w. cbn. by rewrite list_lookup_alter_eq, lookup_snoc.
  - intros ->. exists c. split; [done|].
    pose proof (send_waiting _ command _ Hw Hs Hc) as Hq.
    pose proof (send_consistent command false _ Hw) as Hw'.
    split; [apply Hq|]. intros Hnd.
    destruct (waiting_run _ _ _ _ Hnd Hw' Hq) as [_ [H1 (sk & Hsk & Hin) _ _ _]].
    split; [done|].
    unfold step, exec. cbn. unfold_M. rewrite Hsk.
    set (w1 := run evs _) in *. destruct_world w1.
    by rewrite lookup_settle_all, decide_True, H1.
Qed.

Lemma send_backpressure_witness :
  let w := step (Data 0 (AUTH_OK ++ LF)) (step Connect (new_world sample)) in
  let w' := step (Send (Single (str "status")) false) w in
  let evs := [ByRuntime (Data 0 (str "busy" ++ LF)); ByRuntime (TimerFires 0)] in
  state (self w) = connected
  ∧ ∃ c, conn (self w) = Some c
       ∧ promises w' !! 1 = Some Pending
       ∧ (forallb (not_drain c) evs = true →
          promises (run evs w') !! 1 = Some Pending
          ∧ promises (step (Drain c) (run evs w')) !! 1 = Some Fulfilled).
Proof.
  cbn zeta. split; [reflexivity|].
  refine (proj2 (proj2 (send_backpressure sample _ (Single (str "status")) false
                          _ _ _)) eq_refl).
  - repeat constructor.
  - reflexivity.
Defined.

(** ** quickfire *)











(** For comparison, a window of 500 ms: the hook is registered, a message
    that arrives in the window is collected, and the call returns the
    array. *)
Example quickfire_with_window :
  let qf := qf_run [Runtime (Data 0 (str "Authentication successful." ++ LF));
                    Runtime (Data 0 (str "hello" ++ LF));
                    WindowElapsed]
              (quickfire sample (Single (str "status")) (Some 500%Z) true) in
  qf_phase qf = Returned Responses
  ∧ messageHooks (self (qf_world qf)) = Some PushResponses
  ∧ responses (qf_world qf) = [str "hello"].
Proof. by vm_compute. Qed.

(** * Further properties *)

(** ** Every event, case by case *)

(** In a consistent world an event completes normally, and the world after
    it is one of the following. *)
Lemma dispatch_cases (P : Event → World → Prop) w :
  consistent w →
  P Connect (exec connect w) →
  (state (self w) = disconnected → conn (self w) = None → P Disconnect w) →
  (∀ c, conn (self w) = Some c → c < length (sockets w) →
     P Disconnect
       (with_self (set_conn None)
          (with_sockets (alter sock_end c)
             (with_self (set_state disconnected) w)))) →
  (∀ command accepted, state (self w) ≠ connected →
     P (Send command accepted)
       (with_promises
          (fun ps => ps ++ [Rejected (Error (str "Connection not established"))])
          w)) →
  (∀ command c, state (self w) = connected → conn (self w) = Some c →
     c < length (sockets w) →
     P (Send command true)
       (with_promises (fun ps => alter (settle Fulfilled) (length (promises w))
                                       (ps ++ [Pending]))
          (with_sockets (alter (sock_write (wire command)) c) w))) →
  (∀ command c, state (self w) = connected → conn (self w) = Some c →
     c < length (sockets w) →
     P (Send command false)
       (with_promises (fun ps => ps ++ [Pending])
          (with_sockets (alter (sock_once_drain (length (promises w))) c)
             (with_sockets (alter (sock_write (wire command)) c) w)))) →
  (∀ event l, P (On event l) (exec (on event l) w)) →
  (∀ t, (∀ tm, timers w !! t = Some tm → timer_armed tm = false) →
     P (TimerFires t) w) →
  (∀ t tm, timers w !! t = Some tm → timer_armed tm = true →
     state (self w) ≠ connecting →
     P (TimerFires t) (with_timers (alter disarm t) w)) →
  (∀ t tm c, timers w !! t = Some tm → timer_armed tm = true →
     state (self w) = connecting → conn (self w) = Some c →
     c < length (sockets w) →
     P (TimerFires t)
       (with_promises
          (alter (settle (Rejected (Error (str "Connection timeout."))))
                 (timer_owner tm))
          (with_self (set_conn None)
             (with_sockets (alter sock_end c)
                (with_self (set_state disconnected)
                   (with_timers (alter disarm t) w)))))) →
  (∀ s data, (∀ sk, sockets w !! s = Some sk → sock_data sk = None) →
     P (Data s data) w) →
  (∀ s sk p data c, sockets w !! s = Some sk → sock_data sk = Some p →
     state (self w) = connecting →
     startsWith (trimEnd data) ENTER_PASSWORD = true →
     conn (self w) = Some c → c < length (sockets w) →
     P (Data s data)
       (with_sockets
          (alter (sock_write (Options.password (options (self w)) ++ LF)) c) w)) →
  (∀ s sk p data t tm, sockets w !! s = Some sk → sock_data sk = Some p →
     state (self w) = connecting →
     startsWith (trimEnd data) AUTH_OK = true →
     timeout (self w) = Some t → timers w !! t = Some tm →
     P (Data s data)
       (with_promises (alter (settle Fulfilled) p)
          (with_self (set_timeout None)
             (with_timers (alter disarm t)
                (with_self (set_state connected) w))))) →
  (∀ s sk p data, sockets w !! s = Some sk → sock_data sk = Some p →
     state (self w) = connecting →
     startsWith (trimEnd data) WRONG_PASSWORD = true →
     P (Data s data)
       (with_promises
          (alter (settle (Rejected (Error (str "Wrong password.")))) p) w)) →
  (∀ s sk p data, sockets w !! s = Some sk → sock_data sk = Some p →
     state (self w) = connecting →
     startsWith (trimEnd data) ENTER_PASSWORD = false →
     startsWith (trimEnd data) AUTH_OK = false →
     startsWith (trimEnd data) WRONG_PASSWORD = false →
     P (Data s data) w) →
  (∀ s sk p data, sockets w !! s = Some sk → sock_data sk = Some p →
     state (self w) ≠ connecting →
     P (Data s data)
       match messageHooks (self w) with
       | Some l => with_calls (fun cs => cs ++ [MessageCall l (trimEnd data)]) w
       | None => w
       end) →
  (∀ s hadError,
     P (Close s hadError)
       match sockets w !! s, closeHook (self w) with
       | Some _, Some l => with_calls (fun cs => cs ++ [CloseCall l hadError]) w
       | _, _ => w
       end) →
  (∀ s err,
     P (SocketError s err)
       match sockets w !! s, errorHook (self w) with
       | Some _, Some l => with_calls (fun cs => cs ++ [ErrorCall l err]) w
       | _, _ => w
       end) →
  (∀ s, sockets w !! s = None → P (Drain s) w) →
  (∀ s sk, sockets w !! s = Some sk →
     P (Drain s)
       (with_promises
          (fun ps => foldr (fun q ps => alter (settle Fulfilled) q ps) ps
                           (sock_drain sk))
          (with_sockets (alter sock_drained s) w))) →
  ∀ ev, result (dispatch ev) w = Normal () ∧ P ev (step ev w).
Proof.
  intros Hw Hconnect Hidle Hlive Hrej Hsent Hwait Hon Hnot Hstale Hfire
    Hdeaf Hprompt Hauth Hwrong Hother Hmsg Hclose Herror Hnodrain Hdrain ev.
  destruct ev as [[| |command accepted|event l]|[t|s data|s b|s err|s]];
    unfold step, exec, result; cbn.
  - unfold_M. unfold exec in Hconnect. rewrite connect_effect in *. done.
  - destruct (decide (state (self w) = disconnected)) as [Hs|Hs].
    + pose proof (idle_conn _ Hw Hs) as Hc.
      rewrite (disconnect_idle _ Hs Hc). split; [done|]. by apply Hidle.
    + destruct (live_conn _ Hw Hs) as (c & Hc & Hlt).
      rewrite (disconnect_live _ _ Hc). split; [done|]. by apply Hlive.
  - unfold_M. destruct (decide (state (self w) = connected)) as [Hs|Hs].
    + destruct (live_conn _ Hw) as (c & Hc & Hlt); [congruence|].
      rewrite (send_connected _ _ _ _ Hs Hc). split; [done|].
      destruct accepted; cbn; [by apply Hsent|by apply Hwait].
    + rewrite (send_not_connected _ _ _ Hs). split; [done|]. by apply Hrej.
  - split; [|apply Hon]. unfold on. unfold_M. by repeat case_bool_decide.
  - unfold_M. destruct (timers w !! t) as [tm|] eqn:Ht;
      [|split; [done|]; apply Hnot; intros ?; by rewrite Ht].
    destruct (timer_armed tm) eqn:Ha;
      [|split; [done|]; apply Hnot; intros ?; rewrite Ht; by intros [= <-]].
    destruct (decide (state (self w) = connecting)) as [Hs|Hs].
    + destruct (live_conn _ Hw) as (c & Hc & Hlt); [congruence|].
      rewrite (on_timeout_connecting _ _ c) by by destruct_world w.
      split; [done|]. by eapply Hfire.
    + rewrite on_timeout_other by by destruct_world w.
      split; [done|]. by eapply Hstale.
  - unfold_M. destruct (sockets w !! s) as [sk|] eqn:Hs;
      [|split; [done|]; apply Hdeaf; intros ?; by rewrite Hs].
    destruct (sock_data sk) as [p|] eqn:Hp;
      [|split; [done|]; apply Hdeaf; intros ?; rewrite Hs; by intros [= <-]].
    destruct (decide (state (self w) = connecting)) as [Hst|Hst].
    + destruct (live_conn _ Hw) as (c & Hc & Hlt); [congruence|].
      destruct (handshake_timer _ Hw Hst) as (t & tm & Ht & Hl & Ha).
      destruct (startsWith (trimEnd data) ENTER_PASSWORD) eqn:E1;
        [|destruct (startsWith (trimEnd data) AUTH_OK) eqn:E2;
          [|destruct (startsWith (trimEnd data) WRONG_PASSWORD) eqn:E3]].
      * rewrite (on_data_prompt _ _ _ c) by done. split; [done|].
        by eapply Hprompt.
      * rewrite (on_data_auth_ok _ _ _ t) by done. split; [done|].
        by eapply Hauth.
      * rewrite on_data_wrong_password by done. split; [done|].
        by eapply Hwrong.
      * rewrite on_data_other by done. split; [done|]. by eapply Hother.
    + rewrite on_data_message by done. split; [done|]. by eapply Hmsg.
  - unfold_M. specialize (Hclose s b). unfold call_closeHook. unfold_M.
    destruct (sockets w !! s); [|done]. by destruct (closeHook (self w)).
  - unfold_M. specialize (Herror s err). unfold call_errorHook. unfold_M.
    destruct (sockets w !! s); [|done]. by destruct (errorHook (self w)).
  - unfold_M. destruct (sockets w !! s) as [sk|] eqn:Hs;
      [|split; [done|]; by apply Hnodrain].
    split; [done|]. specialize (Hdrain _ _ Hs). by destruct_world w.
Qed.

(** ** The transport handle *)

Lemma conn_open_same w w' :
  conn (self w') = conn (self w) → sockets w' = sockets w →
  conn_open w → conn_open w'.
Proof. unfold conn_open. intros -> ->. done. Qed.

Lemma conn_open_none w : conn (self w) = None → conn_open w.
Proof. unfold conn_open. intros ->. done. Qed.

Lemma conn_open_sockets f s w :
  (∀ sk, sock_ended (f sk) = sock_ended sk) →
  conn_open w → conn_open (with_sockets (alter f s) w).
Proof.
  intros Hf Hw c Hc. unfold conn_open in Hw. destruct_world w.
  destruct (Hw _ eq_refl) as (sk & Hsk & He).
  rewrite list_lookup_alter. case_decide; [subst|by eauto].
  rewrite Hsk. cbn. eexists. split; [done|]. by rewrite Hf.
Qed.

Lemma sock_ended_write d sk : sock_ended (sock_write d sk) = sock_ended sk.
Proof. by destruct sk. Qed.
Lemma sock_ended_once_drain q sk :
  sock_ended (sock_once_drain q sk) = sock_ended sk.
Proof. by destruct sk. Qed.
Lemma sock_ended_drained sk : sock_ended (sock_drained sk) = sock_ended sk.
Proof. by destruct sk. Qed.

Lemma conn_open_promises f w : conn_open w → conn_open (with_promises f w).
Proof. apply conn_open_same; by destruct w. Qed.
Lemma conn_open_timers f w : conn_open w → conn_open (with_timers f w).
Proof. apply conn_open_same; by destruct w. Qed.
Lemma conn_open_calls f w : conn_open w → conn_open (with_calls f w).
Proof. apply conn_open_same; by destruct w. Qed.
Lemma conn_open_self f w :
  (∀ e, conn (f e) = conn e) → conn_open w → conn_open (with_self f w).
Proof. intros Hf. apply conn_open_same; destruct w; cbn; [apply Hf|done]. Qed.

Lemma conn_set_state s e : conn (set_state s e) = conn e.
Proof. by destruct e. Qed.
Lemma conn_set_timeout t e : conn (set_timeout t e) = conn e.
Proof. by destruct e. Qed.

Lemma step_conn_open ev w : consistent w → conn_open w → conn_open (step ev w).
Proof.
  intros Hw Ho. revert ev.
  apply (dispatch_cases (fun _ w' => conn_open w') w Hw); try done.
  - unfold exec, conn_open. rewrite connect_effect. destruct_world w.
    intros c [= <-]. eexists. split; [apply lookup_snoc|done].
  - intros. apply conn_open_none. by destruct_world w.
  - intros. by apply conn_open_promises.
  - intros. apply conn_open_promises, conn_open_sockets; [|done].
    apply sock_ended_write.
  - intros. apply conn_open_promises, conn_open_sockets;
      [apply sock_ended_once_drain|].
    apply conn_open_sockets; [apply sock_ended_write|done].
  - intros. eapply conn_open_same; [| |done];
      unfold exec, on; unfold_M; destruct_world w;
      by repeat case_bool_decide.
  - intros. by apply conn_open_timers.
  - intros. apply conn_open_none. by destruct_world w.
  - intros. by apply conn_open_sockets; [apply sock_ended_write|].
  - intros. apply conn_open_promises, conn_open_self; [apply conn_set_timeout|].
    apply conn_open_timers, conn_open_self; [apply conn_set_state|done].
  - intros. by apply conn_open_promises.
  - intros. case_match; [by apply conn_open_calls|done].
  - intros. repeat case_match; try done; by apply conn_open_calls.
  - intros. repeat case_match; try done; by apply conn_open_calls.
  - intros. apply conn_open_promises, conn_open_sockets; [|done].
    apply sock_ended_drained.
Qed.

Lemma reachable_conn_open o w : reachable o w → conn_open w.
Proof.
  induction 1 as [|ev w Hr IH]; [by apply conn_open_none|].
  apply step_conn_open; [by eapply reachable_consistent|done].
Qed.

(** X1: in every world the instance can get into, the handle [conn] is
    null exactly while the state is [disconnected]; and when it is not null
    it is a socket of the runtime on which [end] has not been called. *)
Theorem transport_by_state o w :
  reachable o w →
  (conn (self w) = None ↔ state (self w) = disconnected)
  ∧ (∀ c, conn (self w) = Some c →
          ∃ sk, sockets w !! c = Some sk ∧ sock_ended sk = false).
Proof.
  intros Hr. pose proof (reachable_consistent _ _ Hr) as Hw.
  split; [|by apply (reachable_conn_open o)]. split.
  - intros Hc. destruct (decide (state (self w) = disconnected)); [done|].
    destruct (live_conn _ Hw) as (c & Hc' & _); [done|congruence].
  - apply idle_conn, Hw.
Qed.

Lemma transport_by_state_witness :
  let w := run [ByCaller Connect; ByRuntime (Data 0 (AUTH_OK ++ LF))]
               (new_world sample) in
  reachable sample w
  ∧ (conn (self w) = None ↔ state (self w) = disconnected)
  ∧ (∀ c, conn (self w) = Some c →
          ∃ sk, sockets w !! c = Some sk ∧ sock_ended sk = false).
Proof.
  cbn zeta.
  assert (Hr : reachable sample
                 (step (Data 0 (AUTH_OK ++ LF)) (step Connect (new_world sample))))
    by repeat constructor.
  split; [exact Hr|]. exact (transport_by_state sample _ Hr).
Defined.

(** X2: in every world the instance can get into, no method call and no
    callback throws: every event completes normally.  In particular
    [disconnect] and the timer callback never meet a null [conn]. *)
Theorem events_complete o w ev :
  reachable o w → result (dispatch ev) w = Normal ().
Proof.
  intros Hw%reachable_consistent.
  by apply (dispatch_cases (fun _ _ => True) w Hw).
Qed.

Lemma events_complete_witness :
  let w := step Connect (new_world sample) in
  reachable sample w ∧ result (dispatch (TimerFires 0)) w = Normal ().
Proof.
  cbn zeta.
  assert (Hr : reachable sample (step Connect (new_world sample)))
    by repeat constructor.
  split; [exact Hr|]. exact (events_complete sample _ (TimerFires 0) Hr).
Defined.

(** X3: [disconnect] throws, a [TypeError], exactly when the state is not
    [disconnected] while [conn] is null; the state has then already been set
    to [disconnected] and the handle is still null. *)
Theorem disconnect_throws w :
  (result disconnect w = Throw TypeError
   ↔ state (self w) ≠ disconnected ∧ conn (self w) = None)
  ∧ (∀ e, result disconnect w = Throw e →
          e = TypeError
          ∧ state (self (exec disconnect w)) = disconnected
          ∧ conn (self (exec disconnect w)) = None).
Proof.
  unfold result, exec, disconnect, on_conn. unfold_M. destruct_world w.
  destruct w_conn as [c|], w_state; compute;
    (split; [split; [intros Ht|intros [Hs Hc]]|intros e Ht]);
    try discriminate; try done; try (by simplify_eq); by split.
Qed.

(** ** disconnect *)

(** X4: [disconnect] leaves the state [disconnected] and the handle null.
    It calls [end] on the transport, if there is one, and touches nothing
    else: no promise is settled (a pending [connect] stays pending), no
    timer is stopped, the field [timeout] and the three hooks stay.  Called
    while already [disconnected], and so also before any [connect] or a
    second time in a row, it changes nothing. *)
Theorem disconnect_idempotent o w :
  reachable o w →
  let w1 := step Disconnect w in
  state (self w1) = disconnected
  ∧ conn (self w1) = None
  ∧ sockets w1 = match conn (self w) with
                 | Some c => alter sock_end c (sockets w)
                 | None => sockets w
                 end
  ∧ promises w1 = promises w ∧ timers w1 = timers w ∧ calls w1 = calls w
  ∧ timeout (self w1) = timeout (self w)
  ∧ messageHooks (self w1) = messageHooks (self w)
  ∧ closeHook (self w1) = closeHook (self w)
  ∧ errorHook (self w1) = errorHook (self w)
  ∧ (state (self w) = disconnected → w1 = w)
  ∧ step Disconnect w1 = w1.
Proof.
  intros Hw%reachable_consistent. cbn zeta. unfold step, exec. cbn.
  destruct (decide (state (self w) = disconnected)) as [Hs|Hs].
  - pose proof (idle_conn _ Hw Hs) as Hc.
    rewrite !(disconnect_idle _ Hs Hc). cbn. rewrite Hc.
    by rewrite !(disconnect_idle _ Hs Hc).
  - destruct (live_conn _ Hw Hs) as (c & Hc & _).
    rewrite (disconnect_live _ _ Hc). cbn. rewrite Hc.
    rewrite disconnect_idle by by destruct_world w.
    by destruct_world w.
Qed.

Lemma disconnect_idempotent_witness :
  let w := step Connect (new_world sample) in
  let w1 := step Disconnect w in
  reachable sample w
  ∧ state (self w1) = disconnected ∧ conn (self w1) = None
  ∧ promises w1 = promises w
  ∧ step Disconnect w1 = w1.
Proof.
  cbn zeta.
  assert (Hr : reachable sample (step Connect (new_world sample)))
    by repeat constructor.
  split; [exact Hr|].
  pose proof (disconnect_idempotent sample _ Hr)
    as (H1 & H2 & _ & H4 & _ & _ & _ & _ & _ & _ & _ & H10).
  exact (conj H1 (conj H2 (conj H4 H10))).
Defined.

(** ** What an event may do to a socket *)

Lemma socket_after_refl cn s sk : socket_after cn s sk sk.
Proof. repeat split; try done. exists []. by rewrite app_nil_r. Qed.

Lemma socket_after_trans cn s a b c :
  socket_after cn s a b → socket_after cn s b c → socket_after cn s a c.
Proof.
  intros (H1 & H2 & H3 & (m & H4) & H5 & H6) (G1 & G2 & G3 & (n & G4) & G5 & G6).
  unfold socket_after. split_and!; try congruence; try (by auto).
  - exists (m ++ n). by rewrite G4, H4, app_assoc.
  - intros Hne. destruct (H6 Hne), (G6 Hne). split; congruence.
Qed.

Lemma socket_after_write d s sk : socket_after (Some s) s sk (sock_write d sk).
Proof. destruct sk. repeat split; try done. by exists [d]. Qed.

Lemma socket_after_end s sk : socket_after (Some s) s sk (sock_end sk).
Proof.
  destruct sk. repeat split; try done. exists []. cbn. by rewrite app_nil_r.
Qed.

Lemma socket_after_once_drain cn q s sk :
  socket_after cn s sk (sock_once_drain q sk).
Proof.
  destruct sk. repeat split; try done. exists []. cbn. by rewrite app_nil_r.
Qed.

Lemma socket_after_drained cn s sk : socket_after cn s sk (sock_drained sk).
Proof.
  destruct sk. repeat split; try done. exists []. cbn. by rewrite app_nil_r.
Qed.

Lemma lookup_alter_after (f : Socket → Socket) c (ss : list Socket) cn s sk :
  ss !! s = Some sk →
  (c = s → socket_after cn s sk (f sk)) →
  ∃ sk', alter f c ss !! s = Some sk' ∧ socket_after cn s sk sk'.
Proof.
  intros Hs Hf. rewrite list_lookup_alter. case_decide.
  - subst. rewrite Hs. cbn. eauto.
  - eauto using socket_after_refl.
Qed.

Lemma step_socket ev w s sk :
  consistent w → sockets w !! s = Some sk →
  ∃ sk', sockets (step ev w) !! s = Some sk'
         ∧ socket_after (conn (self w)) s sk sk'.
Proof.
  intros Hw Hs. revert ev.
  apply (dispatch_cases
           (fun _ w' => ∃ sk', sockets w' !! s = Some sk'
                               ∧ socket_after (conn (self w)) s sk sk') w Hw);
    intros; try (repeat case_match); destruct_world w;
    eauto using socket_after_refl, lookup_app_l_Some;
    try (apply lookup_alter_after; [done|intros ->];
         eauto using socket_after_write, socket_after_end,
           socket_after_drained).
  - unfold exec. rewrite connect_effect. cbn.
    eauto using socket_after_refl, lookup_app_l_Some.
  - destruct (lookup_alter_after (sock_write (wire command)) c w_ss (Some c)
                s sk Hs) as (sk1 & Hsk1 & A1);
      [intros ->; apply socket_after_write|].
    destruct (lookup_alter_after (sock_once_drain (length w_ps)) c
                (alter (sock_write (wire command)) c w_ss) (Some c) s sk1 Hsk1)
      as (sk2 & Hsk2 & A2); [intros _; apply socket_after_once_drain|].
    eauto using socket_after_trans.
  - unfold exec, on. unfold_M. repeat case_bool_decide; cbn;
      eauto using socket_after_refl.
Qed.

(** X5: an event leaves every socket in place, with the same destination
    and the same ['data'] listener; what was written on it stays, in order,
    and [end] is never undone.  Only the transport of the moment is written
    to or ended: any other socket, and any socket on which [end] has been
    called, has exactly the writes it had. *)
Theorem only_transport_touched o w ev s sk :
  reachable o w → sockets w !! s = Some sk →
  ∃ sk', sockets (step ev w) !! s = Some sk'
    ∧ sock_host sk' = sock_host sk ∧ sock_port sk' = sock_port sk
    ∧ sock_data sk' = sock_data sk
    ∧ (∃ more, sock_written sk' = sock_written sk ++ more)
    ∧ (conn (self w) ≠ Some s →
       sock_written sk' = sock_written sk ∧ sock_ended sk' = sock_ended sk)
    ∧ (sock_ended sk = true →
       sock_written sk' = sock_written sk ∧ sock_ended sk' = true).
Proof.
  intros Hr Hs. pose proof (reachable_consistent _ _ Hr) as Hw.
  pose proof (reachable_conn_open _ _ Hr) as Ho.
  destruct (step_socket ev w s sk Hw Hs)
    as (sk' & Hs' & H1 & H2 & H3 & H4 & H5 & H6).
  exists sk'. split_and!; try done.
  intros He. split; [|by apply H5]. apply H6. intros Hc.
  destruct (Ho _ Hc) as (x & Hx & Hf). congruence.
Qed.

Lemma only_transport_touched_witness :
  let w := run [ByCaller Connect; ByCaller Disconnect; ByCaller Connect]
               (new_world sample) in
  let ev := ByRuntime (Data 0 (str "Enter password:" ++ LF)) in
  reachable sample w
  ∧ ∃ sk sk', sockets w !! 0 = Some sk ∧ sock_ended sk = true
      ∧ sockets (step ev w) !! 0 = Some sk'
      ∧ sock_written sk' = sock_written sk ∧ sock_ended sk' = true.
Proof.
  cbn zeta.
  assert (Hr : reachable sample
                 (step Connect (step Disconnect (step Connect (new_world sample)))))
    by repeat constructor.
  split; [exact Hr|].
  destruct (only_transport_touched sample _
              (ByRuntime (Data 0 (str "Enter password:" ++ LF))) 0 _ Hr eq_refl)
    as (sk' & Hs' & _ & _ & _ & _ & _ & He).
  eexists _, sk'. split; [reflexivity|]. split; [reflexivity|].
  split; [exact Hs'|]. exact (He eq_refl).
Defined.

(** ** The options *)

Lemma localhost_not_empty : isEmpty (str "localhost") = false.
Proof. reflexivity. Qed.

Lemma normalise_settled o :
  not_number (Options.timeout (normalise o)) = false
  ∧ not_string (Options.host (normalise o)) = false.
Proof.
  destruct o as [h p pw t]. unfold normalise.
  cbn [Options.timeout Options.host].
  destruct (not_number t) eqn:E1; cbn [default_timeout Options.host Options.timeout];
    destruct (not_string h) eqn:E2; cbn [default_host Options.host Options.timeout not_number not_string];
    rewrite ?localhost_not_empty; auto.
Qed.

Lemma normalise_fixed o :
  not_number (Options.timeout o) = false → not_string (Options.host o) = false →
  normalise o = o.
Proof. intros H1 H2. unfold normalise. rewrite H1. by rewrite H2. Qed.

Lemma normalise_idem o : normalise (normalise o) = normalise o.
Proof. destruct (normalise_settled o). by apply normalise_fixed. Qed.

Lemma normalise_port o : Options.port (normalise o) = Options.port o.
Proof.
  destruct o as [h p pw t]. unfold normalise. cbn [Options.timeout Options.host].
  destruct (not_number t); cbn [default_timeout Options.host];
    by destruct (not_string h).
Qed.

Lemma normalise_password o :
  Options.password (normalise o) = Options.password o.
Proof.
  destruct o as [h p pw t]. unfold normalise. cbn [Options.timeout Options.host].
  destruct (not_number t); cbn [default_timeout Options.host];
    by destruct (not_string h).
Qed.

Lemma normalise_host o :
  Options.host (normalise o) =
  Some match Options.host o with
       | Some h => if isEmpty h then str "localhost" else h
       | None => str "localhost"
       end.
Proof.
  destruct o as [h p pw t]. unfold normalise. cbn [Options.timeout Options.host].
  destruct (not_number t); cbn [default_timeout Options.host];
    destruct h as [h|]; cbn [not_string]; try done;
    by destruct (isEmpty h).
Qed.

Lemma normalise_delay o :
  delay_of (normalise o) =
  match Options.timeout o with
  | Some z => if (z =? 0)%Z then 10000%Z else z
  | None => 10000%Z
  end.
Proof.
  destruct o as [h p pw t]. unfold normalise, delay_of.
  cbn [Options.timeout Options.host].
  destruct t as [z|]; cbn [not_number];
    [destruct (z =? 0)%Z|]; cbn [default_timeout Options.host];
    by destruct (not_string h).
Qed.

(** [connect] in terms of the normalised options. *)
Lemma connect_normalised w :
  exec connect w =
  let o' := normalise (options (self w)) in
  mkWorld
    (set_timeout (Some (length (timers w)))
       (set_conn (Some (length (sockets w)))
          (set_state connecting (set_options o' (self w)))))
    (sockets w ++ [mkSocket (Options.host o') (Options.port o')
                            (Some (length (promises w))) [] false []])
    (timers w ++ [mkTimer (length (promises w)) (delay_of o') true])
    (promises w ++ [Pending])
    (calls w).
Proof. unfold exec. by rewrite connect_effect. Qed.

Lemma configured_self o f w :
  (∀ e, options (f e) = options e) →
  configured o w → configured o (with_self f w).
Proof.
  intros Hf [H1 H2 H3]. destruct w. split; cbn in *; by rewrite ?Hf.
Qed.
Lemma configured_promises o f w :
  configured o w → configured o (with_promises f w).
Proof. intros [H1 H2 H3]. destruct w. by split. Qed.
Lemma configured_calls o f w : configured o w → configured o (with_calls f w).
Proof. intros [H1 H2 H3]. destruct w. by split. Qed.
Lemma configured_timers o t w :
  configured o w → configured o (with_timers (alter disarm t) w).
Proof.
  intros [H1 H2 H3]. destruct w. split; cbn in *; try done.
  apply Forall_alter; [done|]. intros tm _. by destruct tm.
Qed.
Lemma configured_sockets o f c w :
  (∀ sk, sock_host (f sk) = sock_host sk ∧ sock_port (f sk) = sock_port sk) →
  configured o w → configured o (with_sockets (alter f c) w).
Proof.
  intros Hf [H1 H2 H3]. destruct w. split; cbn in *; try done.
  apply Forall_alter; [done|]. intros sk _. by destruct (Hf sk) as [-> ->].
Qed.

Lemma options_set_state s e : options (set_state s e) = options e.
Proof. by destruct e. Qed.
Lemma options_set_conn c e : options (set_conn c e) = options e.
Proof. by destruct e. Qed.
Lemma options_set_timeout t e : options (set_timeout t e) = options e.
Proof. by destruct e. Qed.

Lemma step_configured o ev w :
  consistent w → configured o w → configured o (step ev w).
Proof.
  intros Hw Hc. revert ev.
  apply (dispatch_cases (fun _ w' => configured o w') w Hw); try done; intros;
    repeat case_match;
    repeat first
      [ done
      | apply configured_promises
      | apply configured_calls
      | apply configured_timers
      | apply configured_self;
        [first [apply options_set_state | apply options_set_conn
               | apply options_set_timeout]|]
      | apply configured_sockets; [intros x; by destruct x|] ].
  - destruct Hc as [H1 H2 H3]. rewrite connect_normalised. cbn zeta.
    assert (normalise (options (self w)) = normalise o) as ->.
    { destruct H1 as [->| ->]; [done|apply normalise_idem]. }
    destruct w as [e ss ts ps cs]. destruct e. split; cbn in *.
    + by right.
    + apply Forall_app. split; [done|]. apply Forall_singleton. cbn.
      split; [done|]. apply normalise_port.
    + apply Forall_app. split; [done|]. by apply Forall_singleton.
  - destruct Hc as [H1 H2 H3]. unfold exec, on. unfold_M. destruct_world w.
    repeat case_bool_decide; by split.
Qed.

Lemma reachable_configured o w : reachable o w → configured o w.
Proof.
  induction 1 as [|ev w Hr IH]; [split; cbn; auto|].
  apply step_configured; [by eapply reachable_consistent|done].
Qed.

(** X6: the port and the password of an instance are, in every world it
    can get into, the ones it was made with.  Every socket was opened to
    that port and to the given host, or to "localhost" when the host is
    absent or empty; every timer was started with the given timeout, or with
    10000 when the timeout is absent or 0. *)
Theorem options_respected o w :
  reachable o w →
  Options.port (options (self w)) = Options.port o
  ∧ Options.password (options (self w)) = Options.password o
  ∧ (∀ s sk, sockets w !! s = Some sk →
       sock_port sk = Options.port o
       ∧ sock_host sk = Some match Options.host o with
                             | Some h => if isEmpty h then str "localhost" else h
                             | None => str "localhost"
                             end)
  ∧ (∀ t tm, timers w !! t = Some tm →
       timer_delay tm = match Options.timeout o with
                        | Some z => if (z =? 0)%Z then 10000%Z else z
                        | None => 10000%Z
                        end).
Proof.
  intros [H1 H2 H3]%reachable_configured. split_and!.
  - destruct H1 as [->| ->]; [done|apply normalise_port].
  - destruct H1 as [->| ->]; [done|apply normalise_password].
  - intros s sk Hs. eapply Forall_lookup_1 in H2 as [-> ->]; [|done].
    split; [done|apply normalise_host].
  - intros t tm Ht. eapply Forall_lookup_1 in H3 as ->; [|done].
    apply normalise_delay.
Qed.

Lemma options_respected_witness :
  let w := run [ByCaller Connect; ByCaller Disconnect; ByCaller Connect]
               (new_world sample) in
  reachable sample w
  ∧ Options.password (options (self w)) = str "hunter2"
  ∧ (∀ t tm, timers w !! t = Some tm → timer_delay tm = 10000%Z).
Proof.
  cbn zeta.
  assert (Hr : reachable sample
                 (step Connect (step Disconnect (step Connect (new_world sample)))))
    by repeat constructor.
  split; [exact Hr|].
  pose proof (options_respected sample _ Hr) as (_ & H2 & _ & H4).
  exact (conj H2 H4).
Defined.

(** ** The hooks *)

Lemma reachable_run o evs w : reachable o w → reachable o (run evs w).
Proof.
  revert w. induction evs as [|ev evs IH]; intros w Hw; [done|].
  cbn. apply IH. by constructor.
Qed.

Lemma step_hooks ev w :
  consistent w → not_on ev = true →
  messageHooks (self (step ev w)) = messageHooks (self w)
  ∧ closeHook (self (step ev w)) = closeHook (self w)
  ∧ errorHook (self (step ev w)) = errorHook (self w).
Proof.
  intros Hw. revert ev.
  apply (dispatch_cases
           (fun ev w' => not_on ev = true →
              messageHooks (self w') = messageHooks (self w)
              ∧ closeHook (self w') = closeHook (self w)
              ∧ errorHook (self w') = errorHook (self w)) w Hw);
    try done; intros; repeat case_match; try (by destruct_world w).
  unfold exec. rewrite connect_effect. by destruct_world w.
Qed.

(** X7: the three hooks change only through [on].  No other method call
    and no event of the runtime clears or replaces a listener: listeners
    stay across [disconnect], a timeout and a new [connect]. *)
Theorem hooks_kept o w evs :
  reachable o w → forallb not_on evs = true →
  messageHooks (self (run evs w)) = messageHooks (self w)
  ∧ closeHook (self (run evs w)) = closeHook (self w)
  ∧ errorHook (self (run evs w)) = errorHook (self w).
Proof.
  revert w. induction evs as [|ev evs IH]; intros w Hr Hn; [done|].
  cbn in Hn. apply andb_true_iff in Hn as [Hn1 Hn2]. cbn.
  destruct (step_hooks ev w (reachable_consistent _ _ Hr) Hn1) as (<- & <- & <-).
  apply IH; [by constructor|done].
Qed.

Lemma hooks_kept_witness :
  let w := step (On (str "message") (Callback 7)) (new_world sample) in
  let evs := [ByCaller Connect; ByRuntime (TimerFires 0); ByCaller Connect;
              ByCaller Disconnect] in
  reachable sample w ∧ forallb not_on evs = true
  ∧ messageHooks (self (run evs w)) = Some (Callback 7).
Proof.
  cbn zeta.
  assert (Hr : reachable sample
                 (step (On (str "message") (Callback 7)) (new_world sample)))
    by repeat constructor.
  split; [exact Hr|]. split; [reflexivity|].
  exact (proj1 (hooks_kept sample _
                  [ByCaller Connect; ByRuntime (TimerFires 0); ByCaller Connect;
                   ByCaller Disconnect] Hr eq_refl)).
Defined.

Lemma messages_to_nil l : messages_to l [].
Proof. intros l' msg Hin. by apply elem_of_nil in Hin. Qed.

Lemma messages_to_app l cs1 cs2 :
  messages_to l cs1 → messages_to l cs2 → messages_to l (cs1 ++ cs2).
Proof. intros H1 H2 l' msg [?|?]%elem_of_app; eauto. Qed.

Lemma step_calls ev w l :
  consistent w → messageHooks (self w) = Some l →
  ∃ more, calls (step ev w) = calls w ++ more ∧ messages_to l more.
Proof.
  intros Hw Hl. revert ev.
  apply (dispatch_cases
           (fun _ w' => ∃ more, calls w' = calls w ++ more ∧ messages_to l more)
           w Hw);
    intros; repeat case_match; destruct_world w;
    try (exists []; split; [by rewrite app_nil_r|apply messages_to_nil]).
  - unfold exec. rewrite connect_effect. cbn.
    exists []. split; [by rewrite app_nil_r|apply messages_to_nil].
  - unfold exec, on. unfold_M. repeat case_bool_decide; cbn;
      (exists []; split; [by rewrite app_nil_r|apply messages_to_nil]).
  - eexists. split; [done|]. intros l' msg [= <- _]%list_elem_of_singleton.
    congruence.
  - eexists. split; [done|]. by intros l' msg [=]%list_elem_of_singleton.
  - eexists. split; [done|]. by intros l' msg [=]%list_elem_of_singleton.
Qed.

(** X8: a hook is a single slot.  After [on('message', l)], and until the
    next [on], every call of the message hook is a call of [l], whatever
    listener was registered before; the log of calls only grows. *)
Theorem last_listener_called o w l evs :
  reachable o w → forallb not_on evs = true →
  let w' := run evs (step (On (str "message") l) w) in
  messageHooks (self w') = Some l
  ∧ ∃ more, calls w' = calls w ++ more ∧ messages_to l more.
Proof.
  intros Hr Hn. cbn zeta.
  assert (reachable o (step (On (str "message") l) w)) as Hr1 by by constructor.
  assert (messageHooks (self (step (On (str "message") l) w)) = Some l) as Hl.
  { unfold step, exec. cbn. unfold on. unfold_M.
    rewrite bool_decide_eq_true_2 by done. by destruct_world w. }
  assert (calls (step (On (str "message") l) w) = calls w) as <-.
  { unfold step, exec. cbn. unfold on. unfold_M.
    rewrite bool_decide_eq_true_2 by done. by destruct_world w. }
  revert Hr1 Hl Hn. generalize (step (On (str "message") l) w). clear w Hr.
  induction evs as [|ev evs IH]; intros w Hr Hl Hn.
  - split; [done|]. exists []. split; [by rewrite app_nil_r|apply messages_to_nil].
  - cbn in Hn. apply andb_true_iff in Hn as [Hn1 Hn2].
    change (run (ev :: evs) w) with (run evs (step ev w)).
    pose proof (reachable_consistent _ _ Hr) as Hw.
    destruct (step_hooks ev w Hw Hn1) as (Hm & _).
    destruct (step_calls ev w l Hw Hl) as (m1 & Hc1 & Hm1).
    destruct (IH (step ev w)) as (Hl' & m2 & Hc2 & Hm2);
      [by constructor|congruence|done|].
    split; [done|]. exists (m1 ++ m2).
    split; [by rewrite Hc2, Hc1, app_assoc|by apply messages_to_app].
Qed.

Lemma last_listener_called_witness :
  let w := run [ByCaller (On (str "message") (Callback 1)); ByCaller Connect;
                ByRuntime (Data 0 (AUTH_OK ++ LF))] (new_world sample) in
  let evs := [ByRuntime (Data 0 (str "hello" ++ LF))] in
  reachable sample w ∧ forallb not_on evs = true
  ∧ messageHooks (self (run evs (step (On (str "message") (Callback 2)) w)))
    = Some (Callback 2).
Proof.
  cbn zeta.
  assert (Hr : reachable sample
                 (step (Data 0 (AUTH_OK ++ LF))
                    (step Connect
                       (step (On (str "message") (Callback 1)) (new_world sample)))))
    by repeat constructor.
  split; [exact Hr|]. split; [reflexivity|].
  exact (proj1 (last_listener_called sample _ (Callback 2)
                  [ByRuntime (Data 0 (str "hello" ++ LF))] Hr eq_refl)).
Defined.

(** ** Messages and transport events *)

(** X9: outside the handshake, chunks that arrive one after the other on a
    socket are handed to the message hook one call each, in the order of
    arrival, each with its text trimmed at the end; nothing else changes.
    This holds while [connected] and also after [disconnect], for a socket
    that still delivers data. *)
Theorem chunks_dispatched_in_order w s sk p l ds :
  sockets w !! s = Some sk → sock_data sk = Some p →
  state (self w) ≠ connecting → messageHooks (self w) = Some l →
  run (chunks s ds) w
  = with_calls (fun cs => cs ++ ((fun d => MessageCall l (trimEnd d)) <$> ds)) w.
Proof.
  revert w. induction ds as [|d ds IH]; intros w Hs Hp Hst Hl.
  - cbn. destruct w; cbn. by rewrite app_nil_r.
  - change (run (chunks s (d :: ds)) w)
      with (run (chunks s ds) (step (Data s d) w)).
    rewrite (step_data _ _ _ _ _ Hs Hp). unfold exec.
    rewrite on_data_message by done. rewrite Hl. cbn [snd].
    rewrite IH by (by destruct w).
    destruct w; cbn. by rewrite <- app_assoc.
Qed.

Lemma chunks_dispatched_in_order_witness :
  let w := run [ByCaller (On (str "message") (Callback 0)); ByCaller Connect;
                ByRuntime (Data 0 (AUTH_OK ++ LF)); ByCaller Disconnect]
               (new_world sample) in
  state (self w) ≠ connecting
  ∧ calls (run (chunks 0 [str "one" ++ LF; str "two" ++ LF]) w)
    = [MessageCall (Callback 0) (str "one"); MessageCall (Callback 0) (str "two")].
Proof.
  cbn zeta. split; [by vm_compute|].
  rewrite (chunks_dispatched_in_order _ 0
             (mkSocket (Some (str "localhost")) 8303 (Some 0) [] true [])
             0 (Callback 0) [str "one" ++ LF; str "two" ++ LF]);
    [reflexivity|reflexivity|reflexivity|by vm_compute|reflexivity].
Defined.

(** X10: a ['close'] or an ['error'] of a socket is only reported: the
    hook, if there is one, is called once with the flag or the error, and
    neither the instance (its state and its handle in particular), nor the
    sockets, the timers or the promises change.  So after the transport has
    closed the state is still [connected], and a [send] is not refused: it
    calls [write] on that socket. *)
Theorem transport_events_reported o w s sk hadError err command accepted :
  reachable o w → sockets w !! s = Some sk →
  step (Close s hadError) w
  = match closeHook (self w) with
    | Some l => with_calls (fun cs => cs ++ [CloseCall l hadError]) w
    | None => w
    end
  ∧ step (SocketError s err) w
    = match errorHook (self w) with
      | Some l => with_calls (fun cs => cs ++ [ErrorCall l err]) w
      | None => w
      end
  ∧ (state (self w) = connected → conn (self w) = Some s →
     let w' := step (Send command accepted) (step (Close s hadError) w) in
     state (self w') = connected
     ∧ promises w' !! length (promises w)
       = Some (if accepted then Fulfilled else Pending)
     ∧ ∃ sk', sockets w' !! s = Some sk'
              ∧ sock_written sk' = sock_written sk ++ [wire command]).
Proof.
  intros Hw%reachable_consistent Hs.
  assert (step (Close s hadError) w
          = match closeHook (self w) with
            | Some l => with_calls (fun cs => cs ++ [CloseCall l hadError]) w
            | None => w
            end) as Hclose.
  { unfold step, exec. cbn. unfold call_closeHook. unfold_M. rewrite Hs.
    by destruct (closeHook (self w)). }
  split; [done|]. split.
  { unfold step, exec. cbn. unfold call_errorHook. unfold_M. rewrite Hs.
    by destruct (errorHook (self w)). }
  intros Hst Hc. cbn zeta. rewrite Hclose, step_send. unfold exec.
  set (w1 := match closeHook (self w) with
             | Some l => with_calls (fun cs => cs ++ [CloseCall l hadError]) w
             | None => w
             end).
  assert (state (self w1) = connected ∧ conn (self w1) = Some s
          ∧ sockets w1 = sockets w ∧ promises w1 = promises w)
    as (Hst1 & Hc1 & Hss1 & Hps1).
  { unfold w1. destruct (closeHook (self w)); by destruct_world w. }
  rewrite (send_connected _ _ _ _ Hst1 Hc1). rewrite Hps1.
  clearbody w1. destruct_world w1.
  destruct accepted; cbn; split_and!; try done.
  - by rewrite list_lookup_alter_eq, lookup_snoc.
  - rewrite list_lookup_alter_eq, Hs. cbn. eexists. split; [done|]. by destruct sk.
  - apply lookup_snoc.
  - rewrite !list_lookup_alter_eq, Hs. cbn. eexists. split; [done|].
    by destruct sk.
Qed.

Lemma transport_events_reported_witness :
  let w := run [ByCaller Connect; ByRuntime (Data 0 (AUTH_OK ++ LF))]
               (new_world sample) in
  let w' := step (Send (Single (str "status")) true) (step (Close 0 true) w) in
  reachable sample w
  ∧ state (self w') = connected
  ∧ promises w' !! 1 = Some Fulfilled.
Proof.
  cbn zeta.
  assert (Hr : reachable sample
                 (step (Data 0 (AUTH_OK ++ LF)) (step Connect (new_world sample))))
    by repeat constructor.
  split; [exact Hr|].
  pose proof (transport_events_reported sample _ 0 _ true [] (Single (str "status"))
                true Hr eq_refl) as (_ & _ & H).
  destruct (H eq_refl eq_refl) as (H1 & H2 & _).
  exact (conj H1 H2).
Defined.

(** ** Promises *)

Lemma settle_settled v x : x ≠ Pending → settle v x = x.
Proof. by destruct x. Qed.

Lemma lookup_alter_settle v q (ps : list Promise) p x :
  ps !! p = Some x →
  ∃ x', alter (settle v) q ps !! p = Some x' ∧ (x ≠ Pending → x' = x).
Proof.
  intros Hp. rewrite list_lookup_alter. case_decide.
  - subst. rewrite Hp. cbn. eauto using settle_settled.
  - eauto.
Qed.

Lemma step_promise ev w p x :
  consistent w → promises w !! p = Some x →
  ∃ x', promises (step ev w) !! p = Some x' ∧ (x ≠ Pending → x' = x).
Proof.
  intros Hw Hp. revert ev.
  apply (dispatch_cases
           (fun _ w' => ∃ x', promises w' !! p = Some x'
                              ∧ (x ≠ Pending → x' = x)) w Hw);
    intros; repeat case_match; destruct_world w;
    eauto using lookup_alter_settle, lookup_app_l_Some.
  - unfold exec. rewrite connect_effect. cbn. eauto using lookup_app_l_Some.
  - unfold exec, on. unfold_M. repeat case_bool_decide; cbn; eauto.
  - rewrite lookup_settle_all. case_decide; [|by eauto].
    rewrite Hp. cbn. eauto using settle_settled.
Qed.

(** X11: a promise once made stays, and once it is settled no event
    changes it: what [connect] or [send] resolved or failed with is final,
    whatever is resolved or rejected later (a timeout after "Wrong
    password.", a late "Authentication successful."). *)
Theorem settled_is_final o w evs p x :
  reachable o w → promises w !! p = Some x →
  ∃ x', promises (run evs w) !! p = Some x' ∧ (x ≠ Pending → x' = x).
Proof.
  revert w x. induction evs as [|ev evs IH]; intros w x Hr Hp; [by eauto|].
  change (run (ev :: evs) w) with (run evs (step ev w)).
  destruct (step_promise ev w p x (reachable_consistent _ _ Hr) Hp)
    as (x1 & Hp1 & Hx1).
  destruct (IH (step ev w) x1) as (x2 & Hp2 & Hx2); [by constructor|done|].
  exists x2. split; [done|]. intros Hne. pose proof (Hx1 Hne) as ->.
  by apply Hx2.
Qed.

Lemma settled_is_final_witness :
  let w := run [ByCaller Connect; ByRuntime (Data 0 (WRONG_PASSWORD ++ LF))]
               (new_world sample) in
  let evs := [ByRuntime (Data 0 (AUTH_OK ++ LF)); ByRuntime (TimerFires 0)] in
  reachable sample w
  ∧ promises w !! 0 = Some (Rejected (Error (str "Wrong password.")))
  ∧ promises (run evs w) !! 0 = Some (Rejected (Error (str "Wrong password."))).
Proof.
  cbn zeta.
  assert (Hr : reachable sample
                 (step (Data 0 (WRONG_PASSWORD ++ LF))
                    (step Connect (new_world sample))))
    by repeat constructor.
  split; [exact Hr|]. split; [reflexivity|].
  destruct (settled_is_final sample _
              [ByRuntime (Data 0 (AUTH_OK ++ LF)); ByRuntime (TimerFires 0)]
              0 _ Hr eq_refl) as (x' & Hx & Hfin).
  transitivity (Some x'); [exact Hx|]. f_equal. by apply Hfin.
Defined.

(** ** Whole handshakes *)

(** X12: from any world the instance can get into, [connect], then the
    prompt, then "Authentication successful." on the new socket give a
    session: the state is [connected] with the new socket as transport, the
    promise of [connect] is fulfilled, the one write on the socket is the
    password the instance was made with followed by the line terminator,
    the timer is stopped and the handle cleared, no hook was called; and
    the timer firing afterwards changes nothing. *)
Theorem handshake_completes o w d1 d2 :
  reachable o w →
  startsWith (trimEnd d1) ENTER_PASSWORD = true →
  startsWith (trimEnd d2) AUTH_OK = true →
  let p := length (promises w) in
  let c := length (sockets w) in
  let t := length (timers w) in
  let w' := run [ByCaller Connect; ByRuntime (Data c d1); ByRuntime (Data c d2)] w in
  state (self w') = connected
  ∧ conn (self w') = Some c
  ∧ timeout (self w') = None
  ∧ promises w' = promises w ++ [Fulfilled]
  ∧ (∃ sk, sockets w' = sockets w ++ [sk]
           ∧ sock_written sk = [Options.password o ++ LF]
           ∧ sock_ended sk = false)
  ∧ (∃ tm, timers w' = timers w ++ [tm] ∧ timer_armed tm = false)
  ∧ calls w' = calls w
  ∧ step (TimerFires t) w' = w'.
Proof.
  intros Hr H1 H2. cbn zeta.
  pose proof (cf_options _ _ (reachable_configured _ _ Hr)) as Ho.
  assert (Options.password (normalise (options (self w))) = Options.password o)
    as Hpw.
  { rewrite normalise_password. destruct Ho as [->| ->]; [done|].
    apply normalise_password. }
  change (run _ w)
    with (step (Data (length (sockets w)) d2)
            (step (Data (length (sockets w)) d1) (step Connect w))).
  rewrite step_connect, connect_normalised. cbn zeta.
  set (o' := normalise (options (self w))) in *. clearbody o'.
  clear Hr Ho. destruct_world w.
  match goal with |- context [step (ByRuntime (Data ?s d1)) ?W] =>
    rewrite (step_data W s
               (mkSocket (Options.host o') (Options.port o')
                         (Some (length w_ps)) [] false [])
               (length w_ps) d1 (lookup_snoc _ _) eq_refl);
    unfold exec;
    rewrite (on_data_prompt W (length w_ps) d1 s eq_refl H1 eq_refl)
  end.
  cbn. rewrite alter_snoc.
  match goal with |- context [step (ByRuntime (Data ?s d2)) ?W] =>
    rewrite (step_data W s _ (length w_ps) d2 (lookup_snoc _ _) eq_refl);
    unfold exec;
    rewrite (on_data_auth_ok W (length w_ps) d2 (length w_ts) eq_refl H2 eq_refl)
  end.
  cbn. rewrite !alter_snoc. cbn.
  split_and!; try done.
  - eexists. split; [done|]. by rewrite Hpw.
  - eexists. by split.
  - apply (step_timer_cancelled _ _ (mkTimer (length w_ps) (delay_of o') false));
      [apply lookup_snoc|done].
Qed.

Lemma handshake_completes_witness :
  let w' := run [ByCaller Connect;
                 ByRuntime (Data 0 (str "Enter password:" ++ LF));
                 ByRuntime (Data 0 (str "Authentication successful." ++ LF))]
                (new_world sample) in
  state (self w') = connected ∧ promises w' = [Fulfilled].
Proof.
  cbn zeta.
  pose proof (handshake_completes sample (new_world sample)
                (str "Enter password:" ++ LF)
                (str "Authentication successful." ++ LF)
                (reachable_new sample) eq_refl eq_refl) as (H1 & _ & _ & H4 & _).
  exact (conj H1 H4).
Defined.

(** X13: when "Wrong password." arrives and nothing else is done, the
    timer of the [connect] later ends the attempt: the state is then
    [disconnected], the socket ended and released, nothing was written on
    it, and the promise of [connect] is still rejected with "Wrong
    password.", not with the timeout. *)
Theorem wrong_password_then_timeout o w d :
  reachable o w →
  startsWith (trimEnd d) WRONG_PASSWORD = true →
  let c := length (sockets w) in
  let t := length (timers w) in
  let w' := run [ByCaller Connect; ByRuntime (Data c d); ByRuntime (TimerFires t)] w in
  state (self w') = disconnected
  ∧ conn (self w') = None
  ∧ promises w' = promises w ++ [Rejected (Error (str "Wrong password."))]
  ∧ (∃ sk, sockets w' = sockets w ++ [sk]
           ∧ sock_written sk = [] ∧ sock_ended sk = true)
  ∧ calls w' = calls w.
Proof.
  intros Hr H1. cbn zeta.
  change (run _ w)
    with (step (TimerFires (length (timers w)))
            (step (Data (length (sockets w)) d) (step Connect w))).
  rewrite step_connect, connect_normalised. cbn zeta.
  set (o' := normalise (options (self w))) in *. clearbody o'.
  clear Hr. destruct_world w.
  match goal with |- context [step (ByRuntime (Data ?s d)) ?W] =>
    rewrite (step_data W s
               (mkSocket (Options.host o') (Options.port o')
                         (Some (length w_ps)) [] false [])
               (length w_ps) d (lookup_snoc _ _) eq_refl);
    unfold exec;
    rewrite (on_data_wrong_password W (length w_ps) d eq_refl H1)
  end.
  cbn.
  match goal with |- context [step (ByRuntime (TimerFires ?t)) ?W] =>
    rewrite (step_timer W t (mkTimer (length w_ps) (delay_of o') true)
               (lookup_snoc _ _) eq_refl);
    unfold exec; cbn [timer_owner]
  end.
  match goal with |- context [on_timeout ?p ?W] =>
    rewrite (on_timeout_connecting W p (length w_ss) eq_refl eq_refl)
  end.
  cbn. rewrite !alter_snoc. cbn.
  split_and!; try done. eexists. by split.
Qed.

Lemma wrong_password_then_timeout_witness :
  let w' := run [ByCaller Connect;
                 ByRuntime (Data 0 (str "Wrong password." ++ LF));
                 ByRuntime (TimerFires 0)] (new_world sample) in
  state (self w') = disconnected
  ∧ promises w' = [Rejected (Error (str "Wrong password."))].
Proof.
  cbn zeta.
  pose proof (wrong_password_then_timeout sample (new_world sample)
                (str "Wrong password." ++ LF)
                (reachable_new sample) eq_refl) as (H1 & _ & H3 & _).
  exact (conj H1 H3).
Defined.

(** ** What send puts on the wire *)

Lemma terminated_app cs1 cs2 :
  terminated (cs1 ++ cs2) = terminated cs1 ++ terminated cs2.
Proof. unfold terminated. by rewrite fmap_app, concat_app. Qed.

Lemma sent_write d sk : sent (sock_write d sk) = sent sk ++ d.
Proof.
  destruct sk. unfold sent. cbn. rewrite concat_app. cbn. by rewrite app_nil_r.
Qed.

Lemma sent_once_drain q sk : sent (sock_once_drain q sk) = sent sk.
Proof. by destruct sk. Qed.

(** A [send] in a session: what it adds to the text on the transport, and
    that the session goes on. *)
Lemma send_sent w command accepted c sk :
  consistent w → state (self w) = connected → conn (self w) = Some c →
  sockets w !! c = Some sk →
  let w' := step (Send command accepted) w in
  consistent w' ∧ state (self w') = connected ∧ conn (self w') = Some c
  ∧ ∃ sk', sockets w' !! c = Some sk' ∧ sent sk' = sent sk ++ wire command.
Proof.
  intros Hw Hs Hc Hsk. cbn zeta. split; [by apply step_consistent|].
  rewrite step_send. unfold exec. rewrite (send_connected _ _ _ _ Hs Hc).
  clear Hw. destruct_world w. destruct accepted; cbn; split_and!; try done.
  - rewrite list_lookup_alter_eq, Hsk. cbn. eexists. split; [done|].
    apply sent_write.
  - rewrite !list_lookup_alter_eq, Hsk. cbn. eexists. split; [done|].
    by rewrite sent_once_drain, sent_write.
Qed.

(** X14: in a session, the text put on the transport by one [send] of a
    list of commands is each command followed by one line terminator, and
    is the same as the text put there by two [send]s of the two halves of
    the list, if neither is empty.  A [send] of the empty list still writes
    one line terminator, and a [send] of a single string is the [send] of
    the list of that one string. *)
Theorem send_batch_split o w c sk cs1 cs2 a a1 a2 :
  reachable o w → state (self w) = connected →
  conn (self w) = Some c → sockets w !! c = Some sk →
  (cs1 ≠ [] → cs2 ≠ [] →
   ∃ sk1 sk2,
     sockets (step (Send (Many (cs1 ++ cs2)) a) w) !! c = Some sk1
     ∧ sockets (run [ByCaller (Send (Many cs1) a1); ByCaller (Send (Many cs2) a2)] w)
         !! c = Some sk2
     ∧ sent sk1 = sent sk ++ terminated (cs1 ++ cs2)
     ∧ sent sk2 = sent sk1)
  ∧ (∃ sk0, sockets (step (Send (Many []) a) w) !! c = Some sk0
            ∧ sent sk0 = sent sk ++ LF)
  ∧ (∀ x, step (Send (Single x) a) w = step (Send (Many [x]) a) w).
Proof.
  intros Hw%reachable_consistent Hs Hc Hsk. split_and!.
  - intros Hn1 Hn2.
    destruct (send_sent w (Many (cs1 ++ cs2)) a c sk Hw Hs Hc Hsk)
      as (_ & _ & _ & sk1 & Hsk1 & Hsent1).
    destruct (send_sent w (Many cs1) a1 c sk Hw Hs Hc Hsk)
      as (Hw' & Hs' & Hc' & ska & Hska & Hsenta).
    destruct (send_sent _ (Many cs2) a2 c ska Hw' Hs' Hc' Hska)
      as (_ & _ & _ & sk2 & Hsk2 & Hsent2).
    exists sk1, sk2. split_and!; try done.
    + rewrite Hsent1. cbn [wire]. rewrite join_terminated; [done|].
      by destruct cs1.
    + rewrite Hsent2, Hsenta, Hsent1. cbn [wire].
      rewrite !join_terminated by (try done; by destruct cs1).
      by rewrite terminated_app, app_assoc.
  - destruct (send_sent w (Many []) a c sk Hw Hs Hc Hsk)
      as (_ & _ & _ & sk0 & Hsk0 & Hsent0). eauto.
  - intros x. by rewrite !step_send.
Qed.

Lemma send_batch_split_witness :
  let w := run [ByCaller Connect; ByRuntime (Data 0 (AUTH_OK ++ LF))]
               (new_world sample) in
  let sk := mkSocket (Some (str "localhost")) 8303 (Some 0) [] false [] in
  reachable sample w ∧ state (self w) = connected
  ∧ ∃ sk0, sockets (step (Send (Many []) true) w) !! 0 = Some sk0
           ∧ sent sk0 = sent sk ++ LF.
Proof.
  cbn zeta.
  assert (Hr : reachable sample
                 (step (Data 0 (AUTH_OK ++ LF)) (step Connect (new_world sample))))
    by repeat constructor.
  split; [exact Hr|]. split; [reflexivity|].
  exact (proj1 (proj2 (send_batch_split sample _ 0 _ [] [] true true true
                         Hr eq_refl eq_refl eq_refl))).
Defined.

(** ** White space at the end of a chunk *)

Lemma trimEnd_blank ws : forallb isWhiteSpace ws = true → trimEnd ws = [].
Proof.
  induction ws as [|c ws IH]; [done|]. cbn [forallb].
  intros [Hc Hws]%andb_true_iff. rewrite trimEnd_cons, IH by done.
  by rewrite Hc.
Qed.

Lemma trimEnd_app_blank d ws :
  forallb isWhiteSpace ws = true → trimEnd (d ++ ws) = trimEnd d.
Proof.
  intros Hws. induction d as [|c d IH]; [by apply trimEnd_blank|].
  cbn [app]. by rewrite !trimEnd_cons, IH.
Qed.

(** X15: white space at the end of a chunk, line terminators included,
    never matters: the chunk with it and the chunk without it have the same
    effect, in every state.  A chunk of white space only is a chunk with the
    empty text: outside the handshake the message hook is called with the
    empty string. *)
Theorem trailing_space_ignored w s d ws :
  forallb isWhiteSpace ws = true →
  step (Data s (d ++ ws)) w = step (Data s d) w
  ∧ (∀ sk p l, sockets w !! s = Some sk → sock_data sk = Some p →
       state (self w) ≠ connecting → messageHooks (self w) = Some l →
       step (Data s ws) w
       = with_calls (fun cs => cs ++ [MessageCall l []]) w).
Proof.
  intros Hws. split.
  - unfold step, exec. cbn. unfold_M. destruct (sockets w !! s) as [sk|]; [|done].
    destruct (sock_data sk); [|done]. unfold on_data.
    by rewrite trimEnd_app_blank.
  - intros sk p l Hs Hp Hst Hl. rewrite (step_data _ _ _ _ _ Hs Hp).
    unfold exec. rewrite on_data_message by done.
    by rewrite Hl, trimEnd_blank.
Qed.

Lemma trailing_space_ignored_witness :
  let w := step Connect (new_world sample) in
  let crlf := [13%N; 10%N] in
  forallb isWhiteSpace crlf = true
  ∧ step (Data 0 (AUTH_OK ++ crlf)) w = step (Data 0 AUTH_OK) w.
Proof.
  cbn zeta. split; [reflexivity|].
  exact (proj1 (trailing_space_ignored (step Connect (new_world sample)) 0
                  AUTH_OK [13%N; 10%N] eq_refl)).
Defined.

(** ** quickfire: failures, backpressure, collection *)

(** The call after "Authentication successful.", told apart by the window
    and by what [write] answered. *)
Lemma quickfire_started o command window accepted :
  quickfire o command window accepted =
  mkQuickfire (exec connect (new_world o)) command (default 0%Z window) accepted
              (AwaitConnect 0).
Proof. unfold quickfire, exec. by rewrite connect_effect. Qed.

(** X16: when the server answers "Wrong password.", [quickfire] fails with
    that error; it has sent nothing and registered no listener, and it does
    not disconnect: the socket stays open and the state [connecting] until
    the timer of [connect] fires, which ends the socket and leaves the
    failure as it is. *)
Theorem quickfire_wrong_password o command window accepted d :
  startsWith (trimEnd d) WRONG_PASSWORD = true →
  let qf := qf_step (Runtime (Data 0 d)) (quickfire o command window accepted) in
  let qf' := qf_step (Runtime (TimerFires 0)) qf in
  (qf_phase qf = Failed (Error (str "Wrong password."))
   ∧ state (self (qf_world qf)) = connecting
   ∧ messageHooks (self (qf_world qf)) = None
   ∧ sock_written <$> sockets (qf_world qf) = [[]]
   ∧ sock_ended <$> sockets (qf_world qf) = [false])
  ∧ (qf_phase qf' = Failed (Error (str "Wrong password."))
     ∧ state (self (qf_world qf')) = disconnected
     ∧ sock_written <$> sockets (qf_world qf') = [[]]
     ∧ sock_ended <$> sockets (qf_world qf') = [true]).
Proof.
  intros Hl. pose proof (wrong_password_not_prompt _ Hl) as Hn.
  pose proof (wrong_password_not_auth_ok _ Hl) as Hn'.
  unfold AUTH_OK, ENTER_PASSWORD, WRONG_PASSWORD in *.
  cbn zeta. rewrite quickfire_started, connect_normalised. cbn zeta.
  set (o' := normalise _). clearbody o'.
  cbn. unfold qf_set, exec, on_data, reject. unfold_M.
  cbn. rewrite Hn, Hn', Hl. cbn.
  unfold on_timeout, disconnect, on_conn, reject. unfold_M. by cbn.
Qed.

Lemma quickfire_wrong_password_witness :
  let d := str "Wrong password." ++ LF in
  let qf := qf_step (Runtime (Data 0 d))
              (quickfire sample (Single (str "status")) None true) in
  startsWith (trimEnd d) WRONG_PASSWORD = true
  ∧ qf_phase qf = Failed (Error (str "Wrong password."))
  ∧ state (self (qf_world qf)) = connecting.
Proof.
  cbn zeta. split; [by vm_compute|].
  pose proof (quickfire_wrong_password sample (Single (str "status")) None true
                (str "Wrong password." ++ LF) eq_refl) as ((H1 & H2 & _) & _).
  exact (conj H1 H2).
Defined.

(** X17: when the timer of [connect] fires before the handshake is done,
    [quickfire] fails with "Connection timeout."; it has sent nothing and
    registered no listener, and the socket is ended and released. *)
Theorem quickfire_timeout o command window accepted :
  let qf := qf_step (Runtime (TimerFires 0))
              (quickfire o command window accepted) in
  qf_phase qf = Failed (Error (str "Connection timeout."))
  ∧ state (self (qf_world qf)) = disconnected
  ∧ conn (self (qf_world qf)) = None
  ∧ messageHooks (self (qf_world qf)) = None
  ∧ sock_written <$> sockets (qf_world qf) = [[]]
  ∧ sock_ended <$> sockets (qf_world qf) = [true].
Proof.
  cbn zeta. rewrite quickfire_started, connect_normalised. cbn zeta.
  set (o' := normalise _). clearbody o'.
  cbn. unfold qf_set, exec, on_timeout, disconnect, on_conn, reject. unfold_M.
  by cbn.
Qed.

(** X18: without a window, when [write] answers [false], [quickfire] waits
    for the ['drain'] of the socket before it disconnects: until then the
    command is written, the socket is not ended, and the call has not
    returned; the ['drain'] makes it end the socket and return
    [undefined]. *)
Theorem quickfire_waits_for_drain o command d :
  startsWith (trimEnd d) AUTH_OK = true →
  let qf := qf_step (Runtime (Data 0 d)) (quickfire o command None false) in
  let qf' := qf_step (Runtime (Drain 0)) qf in
  (qf_phase qf = AwaitSend false 1
   ∧ state (self (qf_world qf)) = connected
   ∧ sock_written <$> sockets (qf_world qf) = [[wire command]]
   ∧ sock_ended <$> sockets (qf_world qf) = [false])
  ∧ (qf_phase qf' = Returned Undefined
     ∧ state (self (qf_world qf')) = disconnected
     ∧ sock_written <$> sockets (qf_world qf') = [[wire command]]
     ∧ sock_ended <$> sockets (qf_world qf') = [true]).
Proof.
  intros Hl. pose proof (auth_ok_not_prompt _ Hl) as Hn.
  unfold AUTH_OK, ENTER_PASSWORD in *.
  cbn zeta. rewrite quickfire_started, connect_normalised. cbn zeta.
  set (o' := normalise _). clearbody o'.
  cbn. unfold qf_set, exec, on_data, on_conn, clearTimeout, resolve. unfold_M.
  cbn. rewrite Hn, Hl. cbn.
  unfold send, async, on_conn, resolve. unfold_M. cbn.
  unfold disconnect, on_conn. unfold_M. cbn.
  by destruct command.
Qed.

Lemma quickfire_waits_for_drain_witness :
  let d := str "Authentication successful." ++ LF in
  let qf := qf_step (Runtime (Data 0 d))
              (quickfire sample (Single (str "status")) None false) in
  startsWith (trimEnd d) AUTH_OK = true
  ∧ qf_phase qf = AwaitSend false 1
  ∧ qf_phase (qf_step (Runtime (Drain 0)) qf) = Returned Undefined.
Proof.
  cbn zeta. split; [by vm_compute|].
  pose proof (quickfire_waits_for_drain sample (Single (str "status"))
                (str "Authentication successful." ++ LF) eq_refl)
    as ((H1 & _) & (H2 & _)).
  exact (conj H1 H2).
Defined.

Lemma Zpos_not_0 p : Z.pos p ≠ 0%Z.
Proof. done. Qed.

(** Chunks that arrive while the call waits for the window, or after it
    has returned, only reach the hook. *)
Lemma qf_chunks_pushed s sk p l ds qf :
  qf_phase qf = AwaitWindow ∨ qf_phase qf = Returned Responses →
  sockets (qf_world qf) !! s = Some sk → sock_data sk = Some p →
  state (self (qf_world qf)) ≠ connecting →
  messageHooks (self (qf_world qf)) = Some l →
  qf_run (qf_chunks s ds) qf
  = qf_set (with_calls (fun cs => cs ++ ((fun d => MessageCall l (trimEnd d))
                                          <$> ds)) (qf_world qf))
           (qf_phase qf) qf.
Proof.
  revert qf. induction ds as [|d ds IH]; intros qf Hph Hs Hp Hst Hl.
  - destruct qf as [w c z a ph]. destruct w. cbn. by rewrite app_nil_r.
  - change (qf_run (qf_chunks s (d :: ds)) qf)
      with (qf_run (qf_chunks s ds) (qf_step (Runtime (Data s d)) qf)).
    assert (qf_step (Runtime (Data s d)) qf
            = qf_set (with_calls (fun cs => cs ++ [MessageCall l (trimEnd d)])
                        (qf_world qf)) (qf_phase qf) qf) as ->.
    { cbn [qf_step].
      change (exec (signal (Data s d)) (qf_world qf))
        with (step (Data s d) (qf_world qf)).
      rewrite (step_data _ _ _ _ _ Hs Hp). unfold exec.
      rewrite on_data_message by done. rewrite Hl. cbn [snd].
      unfold qf_resume. by destruct qf as [w c z a ph], Hph; cbn in *; subst. }
    rewrite IH; [|by destruct qf| | | |];
      try (by destruct qf as [[] ? ? ? ?]).
    destruct qf as [[] ? ? ? ?]. cbn. by rewrite <- app_assoc.
Qed.

Lemma qf_run_app evs1 evs2 qf :
  qf_run (evs1 ++ evs2) qf = qf_run evs2 (qf_run evs1 qf).
Proof. apply foldl_app. Qed.

(** The call with a window, once "Authentication successful." has arrived
    and the write was accepted. *)
Lemma quickfire_collecting o command win d0 :
  win ≠ 0%Z → startsWith (trimEnd d0) AUTH_OK = true →
  let o' := normalise o in
  qf_step (Runtime (Data 0 d0)) (quickfire o command (Some win) true)
  = mkQuickfire
      (mkWorld
         (mkEcon o' (Some 0) connected None None (Some PushResponses) None None)
         [mkSocket (Options.host o') (Options.port o') (Some 0)
                   [wire command] false []]
         [mkTimer 0 (delay_of o') false]
         [Fulfilled; Fulfilled] [])
      command win true AwaitWindow.
Proof.
  intros Hwin Hl. pose proof (auth_ok_not_prompt _ Hl) as Hn.
  unfold AUTH_OK, ENTER_PASSWORD in *.
  cbn zeta. rewrite quickfire_started, connect_normalised. cbn zeta.
  set (o' := normalise _). clearbody o'.
  destruct win as [|n|n]; [done| |];
    cbn; unfold qf_set, exec, on_data, on_conn, clearTimeout, resolve; unfold_M;
    cbn; rewrite Hn, Hl; cbn;
    rewrite bool_decide_eq_true_2 by done;
    unfold send, async, on_conn, resolve; unfold_M; cbn;
    by destruct command.
Qed.

(** The call with a window, when the window is over. *)
Lemma quickfire_returned o command win d0 ds :
  win ≠ 0%Z → startsWith (trimEnd d0) AUTH_OK = true →
  let o' := normalise o in
  qf_run (Runtime (Data 0 d0) :: qf_chunks 0 ds ++ [WindowElapsed])
         (quickfire o command (Some win) true)
  = mkQuickfire
      (mkWorld
         (mkEcon o' None disconnected None None (Some PushResponses) None None)
         [mkSocket (Options.host o') (Options.port o') (Some 0)
                   [wire command] true []]
         [mkTimer 0 (delay_of o') false]
         [Fulfilled; Fulfilled]
         ((fun d => MessageCall PushResponses (trimEnd d)) <$> ds))
      command win true (Returned Responses).
Proof.
  intros Hwin Hl. cbn zeta.
  change (qf_run (Runtime (Data 0 d0) :: qf_chunks 0 ds ++ [WindowElapsed]) ?q)
    with (qf_run (qf_chunks 0 ds ++ [WindowElapsed])
            (qf_step (Runtime (Data 0 d0)) q)).
  rewrite (quickfire_collecting _ _ _ _ Hwin Hl). cbn zeta.
  rewrite qf_run_app.
  erewrite qf_chunks_pushed; [|by left|reflexivity|reflexivity|done|reflexivity].
  cbn [qf_run foldl qf_step qf_window_elapsed qf_set qf_phase qf_world].
  cbn [with_calls].
  match goal with |- context [disconnect ?W] =>
    rewrite (disconnect_live W 0 eq_refl) end.
  done.
Qed.

Lemma responses_of_pushes (ds : list jsstring) :
  omap (fun c => match c with
                 | MessageCall PushResponses msg => Some msg
                 | _ => None
                 end)
       ((fun d => MessageCall PushResponses (trimEnd d)) <$> ds)
  = trimEnd <$> ds.
Proof. induction ds as [|d ds IH]; [done|]. cbn. by rewrite IH. Qed.

(** X19: with a window that is not 0, once the handshake is done and the
    command written, [quickfire] collects what arrives: each chunk, trimmed
    at the end, is one element of [responses], in the order of arrival.
    When the window is over it ends the socket and returns the array. *)
Theorem quickfire_collects o command win d0 ds :
  win ≠ 0%Z → startsWith (trimEnd d0) AUTH_OK = true →
  let qf := qf_run (Runtime (Data 0 d0) :: qf_chunks 0 ds ++ [WindowElapsed])
              (quickfire o command (Some win) true) in
  qf_phase qf = Returned Responses
  ∧ responses (qf_world qf) = trimEnd <$> ds
  ∧ state (self (qf_world qf)) = disconnected
  ∧ conn (self (qf_world qf)) = None
  ∧ sock_written <$> sockets (qf_world qf) = [[wire command]]
  ∧ sock_ended <$> sockets (qf_world qf) = [true].
Proof.
  intros Hwin Hl. cbn zeta. rewrite (quickfire_returned _ _ _ _ _ Hwin Hl).
  cbn. split_and!; try done. apply responses_of_pushes.
Qed.

(** X20: the listener that [quickfire] registered stays registered after
    the call has returned, and the array it returned is the one the listener
    pushes on: a chunk that still arrives on the ended socket after the
    window is appended to the array that was returned. *)
Theorem quickfire_late_chunk o command win d0 ds d :
  win ≠ 0%Z → startsWith (trimEnd d0) AUTH_OK = true →
  let qf := qf_run (Runtime (Data 0 d0) :: qf_chunks 0 ds ++ [WindowElapsed])
              (quickfire o command (Some win) true) in
  let qf' := qf_step (Runtime (Data 0 d)) qf in
  qf_phase qf = Returned Responses
  ∧ qf_phase qf' = Returned Responses
  ∧ messageHooks (self (qf_world qf')) = Some PushResponses
  ∧ responses (qf_world qf') = responses (qf_world qf) ++ [trimEnd d].
Proof.
  intros Hwin Hl. cbn zeta. rewrite (quickfire_returned _ _ _ _ _ Hwin Hl).
  cbn zeta.
  change (qf_step (Runtime (Data 0 d)) ?q) with (qf_run (qf_chunks 0 [d]) q).
  erewrite qf_chunks_pushed; [|by right|reflexivity|reflexivity|done|reflexivity].
  cbn. split_and!; try done. unfold responses. cbn. by rewrite omap_app.
Qed.

Lemma quickfire_collects_witness :
  let d0 := str "Authentication successful." ++ LF in
  let ds := [str "one" ++ LF; str "two" ++ LF] in
  let qf := qf_run (Runtime (Data 0 d0) :: qf_chunks 0 ds ++ [WindowElapsed])
              (quickfire sample (Single (str "status")) (Some 500%Z) true) in
  (500 ≠ 0)%Z ∧ startsWith (trimEnd d0) AUTH_OK = true
  ∧ qf_phase qf = Returned Responses
  ∧ responses (qf_world qf) = [str "one"; str "two"].
Proof.
  cbn zeta. split; [done|]. split; [by vm_compute|].
  pose proof (quickfire_collects sample (Single (str "status")) 500
                (str "Authentication successful." ++ LF)
                [str "one" ++ LF; str "two" ++ LF]
                (Zpos_not_0 500) eq_refl) as (H1 & H2 & _).
  split; [exact H1|]. etransitivity; [exact H2|]. by vm_compute.
Defined.

Lemma quickfire_late_chunk_witness :
  let d0 := str "Authentication successful." ++ LF in
  let qf := qf_run (Runtime (Data 0 d0) :: qf_chunks 0 [] ++ [WindowElapsed])
              (quickfire sample (Single (str "status")) (Some 500%Z) true) in
  (500 ≠ 0)%Z ∧ startsWith (trimEnd d0) AUTH_OK = true
  ∧ responses (qf_world (qf_step (Runtime (Data 0 (str "late" ++ LF))) qf))
    = responses (qf_world qf) ++ [trimEnd (str "late" ++ LF)].
Proof.
  cbn zeta. split; [done|]. split; [by vm_compute|].
  pose proof (quickfire_late_chunk sample (Single (str "status")) 500
                (str "Authentication successful." ++ LF) []
                (str "late" ++ LF) (Zpos_not_0 500) eq_refl) as (_ & _ & _ & H).
  exact H.
Defined.

(** ** connect and the port check of net.connect *)

(** X21: for an instance made with a port that [net.connect] accepts
    (0..65535), [net.connect] never throws: in every world the instance can
    get into, [connect_checked], the method with the argument check of
    [net.connect], does what [connect] does, so that the event [Connect] is
    a call of the method. *)
Theorem connect_checked_in_range o w :
  legal_port (Options.port o) = true → reachable o w →
  connect_checked w = connect w
  ∧ connect_checked w = (Normal (length (promises w)), step Connect w).
Proof.
  intros Hp Hw.
  assert (legal_port (Options.port (options (self w))) = true) as Hp'.
  { destruct (cf_options _ _ (reachable_configured _ _ Hw)) as [->| ->];
      by rewrite ?normalise_port. }
  rewrite (connect_checked_legal _ Hp'). split; [done|].
  rewrite step_connect. unfold exec. by rewrite connect_effect.
Qed.

Lemma connect_checked_in_range_witness :
  let w := run [ByCaller Connect; ByCaller Disconnect] (new_world sample) in
  legal_port (Options.port sample) = true
  ∧ connect_checked w = connect w.
Proof.
  cbn zeta. split; [reflexivity|].
  assert (Hr : reachable sample
                 (run [ByCaller Connect; ByCaller Disconnect] (new_world sample)))
    by repeat constructor.
  exact (proj1 (connect_checked_in_range sample _ eq_refl Hr)).
Defined.

(** X22: with a port that [net.connect] does not accept, [connect] fails
    after it has set the state.  The promise it returns is rejected with the
    [RangeError]; the defaults of the options are filled in and the state is
    [connecting]; no socket is opened and no timer started, and the fields
    [conn] and [timeout] and the hooks are as before.  On an instance that
    had no transport, [send] is then refused as not connected, and
    [disconnect] sets the state to [disconnected] and throws a
    [TypeError]. *)
Theorem connect_bad_port w :
  legal_port (Options.port (options (self w))) = false →
  let p := length (promises w) in
  let w' := exec connect_checked w in
  result connect_checked w = Normal p
  ∧ promises w' = promises w ++ [Rejected RangeError]
  ∧ state (self w') = connecting
  ∧ options (self w') = normalise (options (self w))
  ∧ conn (self w') = conn (self w)
  ∧ timeout (self w') = timeout (self w)
  ∧ sockets w' = sockets w ∧ timers w' = timers w ∧ calls w' = calls w
  ∧ messageHooks (self w') = messageHooks (self w)
  ∧ closeHook (self w') = closeHook (self w)
  ∧ errorHook (self w') = errorHook (self w)
  ∧ (conn (self w) = None →
     (∀ command accepted,
        exec (send command accepted) w' =
        with_promises
          (fun ps => ps ++ [Rejected (Error (str "Connection not established"))])
          w')
     ∧ result disconnect w' = Throw TypeError
     ∧ exec disconnect w' = with_self (set_state disconnected) w').
Proof.
  intros Hp. cbn zeta. unfold result, exec.
  rewrite (connect_checked_illegal _ Hp). cbn [fst snd].
  destruct_world w. cbn. split_and!; try done.
  intros ->. split; [|done].
  intros command accepted. by rewrite send_not_connected.
Qed.

Lemma connect_bad_port_witness :
  let w := new_world (Options.mk None 70000%Z (str "hunter2") None) in
  let w' := exec connect_checked w in
  legal_port (Options.port (options (self w))) = false
  ∧ promises w' = [Rejected RangeError]
  ∧ state (self w') = connecting
  ∧ conn (self w') = None
  ∧ timeout (self w') = None
  ∧ sockets w' = [] ∧ timers w' = [].
Proof.
  cbn zeta. split; [reflexivity|].
  pose proof (connect_bad_port
                (new_world (Options.mk None 70000%Z (str "hunter2") None))
                eq_refl)
    as (_ & H1 & H2 & _ & H4 & H5 & H6 & H7 & _).
  exact (conj H1 (conj H2 (conj H4 (conj H5 (conj H6 H7))))).
Defined.
